(** * Dynamic-topology sculpting core of Blender (sculpt_dyntopo.c)

    Shallow embedding of the parts of [sculpt_dyntopo.c] that compute
    cotangent weights and mixed Voronoi areas, maintain the disk-sort dirty
    flag, guard the dynamic-topology toggle, manage temporary custom-data
    layers, and run the UV relaxation solver.

    Floating-point numbers ([float], [double]) are modelled as exact reals
    [R]; integer flags as [Z] with their bit operations; arrays, memory
    pools and hash tables as lists (a memory pool is iterated in allocation
    order, which is the order of the list). *)

From Stdlib Require Import Reals Lra Psatz RNsatz Btauto ZArith Bool String List.
Import ListNotations.

Open Scope R_scope.

(* ------------------------------------------------------------------ *)
(** ** Vector helpers and geometric primitives *)

Module Geom.

Definition vec3 := (R * R * R)%type.

Definition sub_v3_v3v3 (a b : vec3) : vec3 :=
  let '(a1, a2, a3) := a in
  let '(b1, b2, b3) := b in
  (a1 - b1, a2 - b2, a3 - b3).

Definition dot_v3v3 (a b : vec3) : R :=
  let '(a1, a2, a3) := a in
  let '(b1, b2, b3) := b in
  a1 * b1 + a2 * b2 + a3 * b3.

Definition cross_v3_v3v3 (a b : vec3) : vec3 :=
  let '(a1, a2, a3) := a in
  let '(b1, b2, b3) := b in
  (a2 * b3 - a3 * b2, a3 * b1 - a1 * b3, a1 * b2 - a2 * b1).

Definition len_v3 (a : vec3) : R := sqrt (dot_v3v3 a a).

(** [cross_tri_v3] / [area_tri_v3]: the same computation as this file's
    [cross_tri_v3_db] and [area_tri_v3_db]: half the length of
    [(v1 - v2) x (v2 - v3)]. *)
Definition cross_tri_v3 (v1 v2 v3 : vec3) : vec3 :=
  cross_v3_v3v3 (sub_v3_v3v3 v1 v2) (sub_v3_v3v3 v2 v3).

Definition area_tri_v3 (v1 v2 v3 : vec3) : R :=
  len_v3 (cross_tri_v3 v1 v2 v3) * 0.5.

(** Modelled from the spec: blenlib's [cotangent_tri_weight_v3] (not part
    of this slice), the cotangent of the angle at [v1] between [v2 - v1] and
    [v3 - v1], i.e. [dot / |cross|]; like its sibling
    [cotangent_tri_weight_v3_proj] in this file it returns 0 for a
    degenerate corner. *)
Definition cotangent_tri_weight_v3 (v1 v2 v3 : vec3) : R :=
  let a := sub_v3_v3v3 v2 v1 in
  let b := sub_v3_v3v3 v3 v1 in
  let c_len := len_v3 (cross_v3_v3v3 a b) in
  if Rlt_dec 0 c_len then dot_v3v3 a b / c_len else 0.

(** Modelled from the spec: blenlib's [angle_tri_v3] (not part of this
    slice): the interior angles of triangle [(v1, v2, v3)] at [v1], [v2]
    and [v3]. The angle at corner [a] of [(a, b, c)] is the arc cosine of
    the cosine between [b - a] and [c - a]. *)
Definition corner_angle (a b c : vec3) : R :=
  let e1 := sub_v3_v3v3 b a in
  let e2 := sub_v3_v3v3 c a in
  acos (dot_v3v3 e1 e2 / (len_v3 e1 * len_v3 e2)).

Definition angle_tri_v3 (v1 v2 v3 : vec3) : R * R * R :=
  (corner_angle v1 v2 v3, corner_angle v2 v3 v1, corner_angle v3 v1 v2).

(** The cotangent of an angle, as the spec's Voronoi formula uses it. *)
Definition cot (theta : R) : R := cos theta / sin theta.

(** blenlib's [madd_v3_v3fl]: [r += v * f]. *)
Definition madd_v3_v3fl (r v : vec3) (f : R) : vec3 :=
  let '(r1, r2, r3) := r in
  let '(v1, v2, v3) := v in
  (r1 + v1 * f, r2 + v2 * f, r3 + v3 * f).

(** [FLT_EPSILON] (float.h). *)
Definition FLT_EPSILON : R := 1.1920929e-7.

(** [cotangent_tri_weight_v3_proj] (sculpt_dyntopo.c): the edges
    [v2 - v1] and [v3 - v1] are first projected along [n]. *)
Definition cotangent_tri_weight_v3_proj (n v1 v2 v3 : vec3) : R :=
  let a := sub_v3_v3v3 v2 v1 in
  let b := sub_v3_v3v3 v3 v1 in
  let a := madd_v3_v3fl a n (- dot_v3v3 n a) in
  let b := madd_v3_v3fl b n (- dot_v3v3 n b) in
  let c := cross_v3_v3v3 a b in
  let c_len := len_v3 c in
  if Rlt_dec FLT_EPSILON c_len then dot_v3v3 a b / c_len else 0.

(** C's [x > y] on floats, as a boolean. *)
Definition Rgtb (x y : R) : bool := if Rlt_dec y x then true else false.

(** [tri_voronoi_area] (sculpt_dyntopo.c). *)
Definition tri_voronoi_area (p q r : vec3) : R :=
  let pr := sub_v3_v3v3 p r in
  let pq := sub_v3_v3v3 p q in
  let '(a0, a1, a2) := angle_tri_v3 p q r in
  if Rgtb a0 (PI * 0.5) then area_tri_v3 p q r / 2
  else if Rgtb a1 (PI * 0.5) || Rgtb a2 (PI * 0.5) then area_tri_v3 p q r / 4
  else
    let dpr := dot_v3v3 pr pr in
    let dpq := dot_v3v3 pq pq in
    (1 / 8) * (dpr * cotangent_tri_weight_v3 q p r
               + dpq * cotangent_tri_weight_v3 r q p).

End Geom.

(* ------------------------------------------------------------------ *)
(** ** Cotangent weights around a vertex *)

Module Cotan.
Import Geom.

(** One iteration of the loop body shared by [SCULPT_dyntopo_get_cotangents]
    and [SCULPT_faces_get_cotangents]: [v] is the hub, [v2] the other end of
    the current edge, [v1] and [v3] the other ends of the previous and next
    edges of the cycle. *)
Record wedge := mkWedge {
  wd_w : R;      (* r_ws[i] before normalisation: cot1 + cot2 *)
  wd_cot1 : R;
  wd_cot2 : R;
  wd_area : R
}.

Definition cot_wedge (v v1 v2 v3 : vec3) : wedge :=
  let cot1 := cotangent_tri_weight_v3 v1 v v2 in
  let cot2 := cotangent_tri_weight_v3 v3 v2 v in
  let area := tri_voronoi_area v v1 v2 in
  mkWedge (cot1 + cot2) cot1 cot2 area.

(** The output arrays [r_ws], [r_cot1], [r_cot2], [r_area] and
    [*r_totarea]. *)
Record cot_out := mkCotOut {
  r_ws : list R;
  r_cot1 : list R;
  r_cot2 : list R;
  r_area : list R;
  r_totarea : R
}.

(** The tail of both functions: accumulate [totarea] in loop order, then
    multiply every weight by [mul = 1 / (totarea * 2)]. *)
Definition finish_cotangents (ws : list wedge) : cot_out :=
  let totarea := fold_left (fun acc w => acc + wd_area w) ws 0 in
  let mul := 1 / (totarea * 2) in
  mkCotOut (map (fun w => wd_w w * mul) ws) (map wd_cot1 ws) (map wd_cot2 ws)
           (map wd_area ws) totarea.

(** A mesh: vertex coordinates and edges as pairs of vertex indices
    ([MVert], [MEdge] / [BMVert], [BMEdge]). *)
Definition origin : vec3 := (0, 0, 0).

Definition co (mvert : list vec3) (i : nat) : vec3 := nth i mvert origin.

Definition edge_other_vert (medge : list (nat * nat)) (vi e : nat) : nat :=
  let '(a, b) := nth e medge (0%nat, 0%nat) in
  if Nat.eqb vi a then b else a.

(** [SCULPT_faces_get_cotangents]: [vemap] is [ss->vemap[vertex]], the
    incident edges of vertex [vi] in disk-cycle order. *)
Definition faces_get_cotangents (mvert : list vec3) (medge : list (nat * nat))
    (vemap : list nat) (vi : nat) : cot_out :=
  let count := length vemap in
  let v := co mvert vi in
  let body i :=
    let i1 := ((i + count - 1) mod count)%nat in
    let i2 := i in
    let i3 := ((i + 1) mod count)%nat in
    let e1 := nth i1 vemap 0%nat in
    let e2 := nth i2 vemap 0%nat in
    let e3 := nth i3 vemap 0%nat in
    cot_wedge v (co mvert (edge_other_vert medge vi e1))
                (co mvert (edge_other_vert medge vi e2))
                (co mvert (edge_other_vert medge vi e3)) in
  finish_cotangents (map body (seq 0 count)).

(** [SCULPT_dyntopo_get_cotangents]: the disk cycle of the vertex, after
    [SCULPT_dyntopo_check_disk_sort], is the list [disk] of its incident
    edges starting at [v->e]; [eprev]/[enext] are the cyclic neighbours in
    that list. The walk starts at [v->e] with [eprev] the last edge of the
    cycle and stops when [enext] is [v->e] again. *)
Fixpoint disk_walk (mvert : list vec3) (medge : list (nat * nat)) (vi : nat)
    (efirst eprev : nat) (es : list nat) : list wedge :=
  match es with
  | [] => []
  | e :: rest =>
      let enext := match rest with [] => efirst | n :: _ => n end in
      cot_wedge (co mvert vi) (co mvert (edge_other_vert medge vi eprev))
                (co mvert (edge_other_vert medge vi e))
                (co mvert (edge_other_vert medge vi enext))
        :: disk_walk mvert medge vi efirst e rest
  end.

(** [None]: the vertex has no edge and the function returns without
    writing its outputs. *)
Definition dyntopo_get_cotangents (mvert : list vec3) (medge : list (nat * nat))
    (disk : list nat) (vi : nat) : option cot_out :=
  match disk with
  | [] => None
  | e0 :: _ =>
      Some (finish_cotangents (disk_walk mvert medge vi e0 (last disk e0) disk))
  end.

Definition sum_list (l : list R) : R := fold_right Rplus 0 l.

End Cotan.

(* ------------------------------------------------------------------ *)
(** ** Disk-cycle dirty flag *)

Module DiskSort.
Section DiskSort.

(** The [DYNVERT_NEED_DISK_SORT] bit of [MDynTopoVert.flag] (declared in
    BKE_pbvh.h, outside this slice) and [BM_sort_disk_cycle] (BMesh
    library): any mask and any re-ordering of the disk cycle. *)
Variable DYNVERT_NEED_DISK_SORT : Z.
Variable BMEdge : Type.
Variable BM_sort_disk_cycle : list BMEdge -> list BMEdge.

(** The state [SCULPT_dyntopo_check_disk_sort] reads and writes: the
    vertex's [MDynTopoVert] flag word and its disk cycle. *)
Record dyn_vert := mkDynVert {
  mv_flag : Z;
  v_disk : list BMEdge
}.

Definition SCULPT_dyntopo_check_disk_sort (v : dyn_vert) : bool * dyn_vert :=
  if negb (Z.eqb (Z.land (mv_flag v) DYNVERT_NEED_DISK_SORT) 0) then
    let flag' := Z.land (mv_flag v) (Z.lnot DYNVERT_NEED_DISK_SORT) in
    (true, mkDynVert flag' (BM_sort_disk_cycle (v_disk v)))
  else (false, v).

(** The [PBVH_BMESH] case of [SCULPT_cotangents_begin]: every vertex of the
    table, in index order, goes through [SCULPT_dyntopo_check_disk_sort];
    each call reads and writes only its own vertex. *)
Definition SCULPT_cotangents_begin_bmesh (vs : list dyn_vert) : list dyn_vert :=
  map (fun v => snd (SCULPT_dyntopo_check_disk_sort v)) vs.

End DiskSort.
End DiskSort.

(* ------------------------------------------------------------------ *)
(** ** The dynamic-topology toggle operator *)

Module Toggle.

(** [enum eDynTopoWarnFlag] (sculpt_intern.h, outside this slice):
    distinct single bits. *)
Definition DYNTOPO_WARN_VDATA : Z := 1.
Definition DYNTOPO_WARN_EDATA : Z := 2.
Definition DYNTOPO_WARN_LDATA : Z := 4.
Definition DYNTOPO_WARN_MODIFIER : Z := 8.
Definition DYNTOPO_ERROR_MULTIRES : Z := 16.

(** Custom-data type numbers used by the check (DNA_customdata_types.h). *)
Definition CD_MVERT : nat := 0.
Definition CD_MEDGE : nat := 3.
Definition CD_MFACE : nat := 4.
Definition CD_ORIGINDEX : nat := 7.
Definition CD_MPOLY : nat := 25.
Definition CD_MLOOP : nat := 26.
Definition CD_PAINT_MASK : nat := 34.
Definition CD_NUMTYPES : nat := 52.

(** [eModifierType_Multires] (DNA_modifier_types.h). *)
Definition eModifierType_Multires : nat := 29.

(** [ModifierTypeInfo.type]. *)
Inductive ModifierTypeType :=
  | eModifierTypeType_OnlyDeform
  | eModifierTypeType_Constructive
  | eModifierTypeType_Nonconstructive
  | eModifierTypeType_DeformOrConstruct
  | eModifierTypeType_NonGeometrical.

Definition is_constructive (t : ModifierTypeType) : bool :=
  match t with eModifierTypeType_Constructive => true | _ => false end.

(** One entry of the (virtual) modifier list: its type, the answer of
    [BKE_modifier_is_enabled(scene, md, eModifierMode_Realtime)], and the
    [type] of its [ModifierTypeInfo]. *)
Record ModifierData := mkModifier {
  md_type : nat;
  md_enabled_realtime : bool;
  md_info_type : ModifierTypeType
}.

(** The object as the check sees it: the list returned by
    [BKE_modifiers_get_virtual_modifierlist], and the custom-data layer
    types present in the mesh's [vdata], [edata], [ldata]. *)
Record Object := mkObject {
  ob_modifiers : list ModifierData;
  me_vdata : list nat;
  me_edata : list nat;
  me_ldata : list nat
}.

Definition CustomData_has_layer (data : list nat) (i : nat) : bool :=
  existsb (Nat.eqb i) data.

Definition cd_excluded (i : nat) : bool :=
  existsb (Nat.eqb i)
    [CD_MVERT; CD_MEDGE; CD_MFACE; CD_MLOOP; CD_MPOLY; CD_PAINT_MASK; CD_ORIGINDEX].

Definition check_customdata (ob : Object) (flag : Z) : Z :=
  fold_left (fun flag i =>
      if negb (cd_excluded i) then
        let flag := if CustomData_has_layer (me_vdata ob) i
                    then Z.lor flag DYNTOPO_WARN_VDATA else flag in
        let flag := if CustomData_has_layer (me_edata ob) i
                    then Z.lor flag DYNTOPO_WARN_EDATA else flag in
        if CustomData_has_layer (me_ldata ob) i
        then Z.lor flag DYNTOPO_WARN_LDATA else flag
      else flag)
    (seq 0 CD_NUMTYPES) flag.

(** The modifier loop, with its [continue] and [break]. *)
Fixpoint check_modifiers (mds : list ModifierData) (flag : Z) : Z :=
  match mds with
  | [] => flag
  | md :: rest =>
      if negb (md_enabled_realtime md) then check_modifiers rest flag
      else
        let flag := if Nat.eqb (md_type md) eModifierType_Multires
                    then Z.lor flag DYNTOPO_ERROR_MULTIRES else flag in
        if is_constructive (md_info_type md)
        then Z.lor flag DYNTOPO_WARN_MODIFIER
        else check_modifiers rest flag
  end.

Definition SCULPT_dynamic_topology_check (ob : Object) : Z :=
  check_modifiers (ob_modifiers ob) (check_customdata ob 0).

(** The sculpt-session state the toggle touches: the boundary-rep mesh
    ([None] is [ss->bm == NULL], the Static state), the undo steps pushed,
    the active vertex/face indices, and the two globals the undo guard
    reads. *)
Record SculptSession := mkSession {
  ss_bm : option nat;
  ss_undo : list string;
  ss_active_index : Z;
  ss_background : bool;
  ss_undo_stack : bool
}.

(** [use_undo = G.background ? (ED_undo_stack_get() != NULL) : true]:
    [ss_background] is [G.background], [ss_undo_stack] is
    [ED_undo_stack_get() != NULL]. *)
Definition use_undo (ss : SculptSession) : bool :=
  if ss_background ss then ss_undo_stack ss else true.

Definition push_undo (ss : SculptSession) (name : string) : list string :=
  if use_undo ss then name :: ss_undo ss else ss_undo ss.

Inductive op_result := OPERATOR_FINISHED | OPERATOR_INTERFACE.

(** [SCULPT_dynamic_topology_enable_ex] builds a boundary-rep mesh from the
    persistent mesh; [SCULPT_dynamic_topology_disable_ex] frees it. *)
Definition sculpt_dynamic_topology_enable_with_undo (ss : SculptSession) : SculptSession :=
  match ss_bm ss with
  | None => mkSession (Some 0%nat) (push_undo ss "Dynamic topology enable") 0%Z
              (ss_background ss) (ss_undo_stack ss)
  | Some _ => ss
  end.

Definition sculpt_dynamic_topology_disable_with_undo (ss : SculptSession) : SculptSession :=
  match ss_bm ss with
  | Some _ => mkSession None (push_undo ss "Dynamic topology disable") 0%Z
                (ss_background ss) (ss_undo_stack ss)
  | None => ss
  end.

Definition sculpt_dynamic_topology_toggle_exec (ss : SculptSession)
    : op_result * SculptSession :=
  match ss_bm ss with
  | Some _ => (OPERATOR_FINISHED, sculpt_dynamic_topology_disable_with_undo ss)
  | None => (OPERATOR_FINISHED, sculpt_dynamic_topology_enable_with_undo ss)
  end.

(** [dyntopo_error_popup] and [dyntopo_warning_popup] only build a popup
    menu and return [OPERATOR_INTERFACE]. *)
Definition dyntopo_error_popup (ss : SculptSession) : op_result * SculptSession :=
  (OPERATOR_INTERFACE, ss).

Definition dyntopo_warning_popup (ss : SculptSession) : op_result * SculptSession :=
  (OPERATOR_INTERFACE, ss).

Definition sculpt_dynamic_topology_toggle_invoke (ob : Object) (ss : SculptSession)
    : op_result * SculptSession :=
  match ss_bm ss with
  | None =>
      let flag := SCULPT_dynamic_topology_check ob in
      if negb (Z.eqb (Z.land flag DYNTOPO_ERROR_MULTIRES) 0) then dyntopo_error_popup ss
      else if negb (Z.eqb flag 0) then dyntopo_warning_popup ss
      else sculpt_dynamic_topology_toggle_exec ss
  | Some _ => sculpt_dynamic_topology_toggle_exec ss
  end.

End Toggle.

(* ------------------------------------------------------------------ *)
(** ** Temporary custom-data layers *)

Module TempLayer.
Section TempLayer.

(** Per-type element size from the custom-data type info (outside this
    slice). *)
Variable layer_size : nat -> nat.

(** The default layer name of each type ([LayerTypeInfo.defaultname]),
    and the type number of [CD_DYNTOPO_VERT] (a type of this branch). *)
Variable default_name : nat -> string.
Variable CD_DYNTOPO_VERT : nat.

Record CustomDataLayer := mkLayer {
  cl_type : nat;
  cl_name : string;
  cl_flag : Z;
  cl_offset : nat
}.

(** [CD_FLAG_TEMPORARY] (DNA_customdata_types.h). *)
Definition CD_FLAG_TEMPORARY : Z := 32.

(** Modelled from the spec: blenkernel's custom-data layer lookups (not
    part of this slice). The index of the first layer satisfying [p], or
    -1. *)
Fixpoint find_layer (p : CustomDataLayer -> bool) (ls : list CustomDataLayer) : Z :=
  match ls with
  | [] => (-1)%Z
  | l :: rest =>
      if p l then 0%Z
      else let i := find_layer p rest in if (i <? 0)%Z then (-1)%Z else (i + 1)%Z
  end.

Definition CustomData_get_named_layer_index (cd : list CustomDataLayer)
    (type : nat) (name : string) : Z :=
  find_layer (fun l => Nat.eqb (cl_type l) type && String.eqb (cl_name l) name) cd.

Definition CustomData_get_layer_index (cd : list CustomDataLayer) (type : nat) : Z :=
  find_layer (fun l => Nat.eqb (cl_type l) type) cd.

Definition layer_at (cd : list CustomDataLayer) (i : Z) : option CustomDataLayer :=
  if (i <? 0)%Z then None else nth_error cd (Z.to_nat i).

Definition CustomData_get_layer_index_n (cd : list CustomDataLayer) (type : nat)
    (n : Z) : Z :=
  let i := CustomData_get_layer_index cd type in
  if (i =? -1)%Z then (-1)%Z
  else match layer_at cd (i + n) with
       | Some l => if Nat.eqb (cl_type l) type then (i + n)%Z else (-1)%Z
       | None => (-1)%Z
       end.

Definition CustomData_get_n_offset (cd : list CustomDataLayer) (type : nat) (n : Z) : Z :=
  let i := CustomData_get_layer_index_n cd type n in
  match layer_at cd i with
  | Some l => Z.of_nat (cl_offset l)
  | None => (-1)%Z
  end.

(** Modelled from the spec: after a layer is added, the offsets of all
    layers are recomputed; each layer's block starts where the previous
    one ends. *)
Fixpoint update_offsets (start : nat) (cd : list CustomDataLayer) : list CustomDataLayer :=
  match cd with
  | [] => []
  | l :: rest =>
      mkLayer (cl_type l) (cl_name l) (cl_flag l) start
        :: update_offsets (start + layer_size (cl_type l)) rest
  end.

(** Modelled from the spec: [BM_data_layer_add_named] adds one layer,
    placed after the last layer whose type is not greater (the layer array
    is kept grouped by type), then refreshes the offsets. *)
Fixpoint insert_rev (x : CustomDataLayer) (rl : list CustomDataLayer) : list CustomDataLayer :=
  match rl with
  | [] => [x]
  | y :: r => if Nat.ltb (cl_type x) (cl_type y) then y :: insert_rev x r else x :: y :: r
  end.

Definition BM_data_layer_add_named (cd : list CustomDataLayer) (type : nat)
    (name : string) : list CustomDataLayer :=
  update_offsets 0 (rev (insert_rev (mkLayer type name 0 0) (rev cd))).

(** [layers[li].flag |= f]. *)
Fixpoint set_layer_flag (cd : list CustomDataLayer) (li : nat) (f : Z) : list CustomDataLayer :=
  match cd, li with
  | [], _ => []
  | l :: rest, O => mkLayer (cl_type l) (cl_name l) (Z.lor (cl_flag l) f) (cl_offset l) :: rest
  | l :: rest, S li => l :: set_layer_flag rest li f
  end.

(** [SCULPT_dyntopo_has_templayer]. *)
Definition SCULPT_dyntopo_has_templayer (cd : list CustomDataLayer) (type : nat)
    (name : string) : bool :=
  (0 <=? CustomData_get_named_layer_index cd type name)%Z.

(** [BMCustomLayerReq]: a layer type, an optional name ([NULL]) and the
    flags to give the layer. *)
Record BMCustomLayerReq := mkReq {
  req_type : nat;
  req_name : option string;
  req_flag : Z
}.

(** Where a request is already satisfied: by type and name, or by type
    alone for a request without a name. *)
Definition req_index (cd : list CustomDataLayer) (r : BMCustomLayerReq) : Z :=
  match req_name r with
  | Some n => CustomData_get_named_layer_index cd (req_type r) n
  | None => CustomData_get_layer_index cd (req_type r)
  end.

(** Modelled from the spec (bmesh library, outside this slice):
    [BM_data_layers_ensure] adds, in request order, every requested layer
    that is missing (a request without a name gets the type's default
    name) and gives the added layer the requested flags; layers already
    there are left alone. *)
Definition BM_data_layers_ensure (cd : list CustomDataLayer) (reqs : list BMCustomLayerReq)
    : list CustomDataLayer :=
  fold_left (fun cd r =>
      if (req_index cd r <? 0)%Z then
        let cd := BM_data_layer_add_named cd (req_type r)
                    (match req_name r with Some n => n | None => default_name (req_type r) end) in
        set_layer_flag cd (Z.to_nat (req_index cd r)) (req_flag r)
      else cd)
    reqs cd.

(** [CD_PROP_INT32] (DNA_customdata_types.h). *)
Definition CD_PROP_INT32 : nat := 11.

(** [dyntopop_node_idx_layer_id]. *)
Definition dyntopop_node_idx_layer_id : string := "_dyntopo_node_id".

(** The vertex layers of [SCULPT_dyntopo_node_layers_add] ([vlayers]). *)
Definition node_vlayers : list BMCustomLayerReq :=
  [mkReq Toggle.CD_PAINT_MASK None 0;
   mkReq CD_DYNTOPO_VERT None CD_FLAG_TEMPORARY;
   mkReq CD_PROP_INT32 (Some dyntopop_node_idx_layer_id) CD_FLAG_TEMPORARY].

(** [SCULPT_dyntopo_node_layers_add] on [ss->bm->vdata]: the face layers
    it ensures are in [pdata], and the rest of it only caches offsets in
    the session. *)
Definition SCULPT_dyntopo_node_layers_add (cd : list CustomDataLayer) : list CustomDataLayer :=
  let cd := BM_data_layers_ensure cd node_vlayers in
  let cd_node_layer_index :=
    CustomData_get_named_layer_index cd CD_PROP_INT32 dyntopop_node_idx_layer_id in
  set_layer_flag cd (Z.to_nat cd_node_layer_index) CD_FLAG_TEMPORARY.

(** [SCULPT_dyntopo_node_layers_update_offsets] on [ss->bm->vdata]: the
    PBVH and the undo log only receive the new offsets. *)
Definition SCULPT_dyntopo_node_layers_update_offsets (cd : list CustomDataLayer)
    : list CustomDataLayer :=
  SCULPT_dyntopo_node_layers_add cd.

(** [SCULPT_dyntopo_ensure_templayer] on [ss->bm->vdata]. *)
Definition SCULPT_dyntopo_ensure_templayer (cd : list CustomDataLayer) (type : nat)
    (name : string) : list CustomDataLayer :=
  let li := CustomData_get_named_layer_index cd type name in
  if (li <? 0)%Z then
    let cd := BM_data_layer_add_named cd type name in
    let cd := SCULPT_dyntopo_node_layers_update_offsets cd in
    let li := CustomData_get_named_layer_index cd type name in
    set_layer_flag cd (Z.to_nat li) CD_FLAG_TEMPORARY
  else cd.

(** [SCULPT_dyntopo_get_templayer]. *)
Definition SCULPT_dyntopo_get_templayer (cd : list CustomDataLayer) (type : nat)
    (name : string) : Z :=
  let li := CustomData_get_named_layer_index cd type name in
  if (li <? 0)%Z then (-1)%Z
  else CustomData_get_n_offset cd type (li - CustomData_get_layer_index cd type).

End TempLayer.
End TempLayer.

(* ------------------------------------------------------------------ *)
(** ** The UV relaxation solver *)

Module UVSolver.
Import Geom.

Definition vec2 := (R * R)%type.

Definition MAXUVLOOPS : nat := 32.
Definition MAXUVNEIGHBORS : nat := 32.

(** A mesh corner ([BMLoop]) as the solver reads it: its identity, the id
    and coordinates of its vertex [l->v], and whether its edge [l->e] is a
    seam. Its UV ([MLoopUV] at [cd_uv]) is in the loop-UV store. *)
Record BMLoop := mkLoop {
  l_id : nat;
  l_v : nat;
  l_co : vec3;
  l_seam : bool
}.

(** A face: its identity and its loops from [f->l_first] in [next] order. *)
Record BMFace := mkFace {
  f_id : nat;
  f_loops : list BMLoop
}.

(** The [MLoopUV] custom data of all loops, by loop id. *)
Definition uv_store := nat -> vec2.

Definition uv_set (uvs : uv_store) (l : nat) (uv : vec2) : uv_store :=
  fun k => if Nat.eqb k l then uv else uvs k.

(** [UVSmoothVert]; [totloop] and [totneighbor] are the lengths of
    [sv_ls] and [sv_neighbors]; neighbours are indices into the vertex
    pool. *)
Record UVSmoothVert := mkSV {
  sv_uv : vec2;
  sv_co : vec3;
  sv_v : nat;
  sv_pinned : bool;
  sv_boundary : bool;
  sv_ls : list nat;
  sv_neighbors : list nat
}.

Record UVSmoothTri := mkTri {
  tri_vs : list nat;
  tri_area2d : R;
  tri_area3d : R
}.

Inductive con_kind := CON_ANGLES | CON_AREA.

Definition CON_MAX_VERTS : nat := 16.

(** [UVSmoothConstraint]; [totvert] is the length of [con_vs], [con_gs]
    is [gs] (its [CON_MAX_VERTS] rows), [con_params0] is [params[0]]. *)
Record UVSmoothConstraint := mkCon {
  con_type : con_kind;
  con_k : R;
  con_vs : list nat;
  con_tri : option nat;
  con_gs : list vec2;
  con_params0 : R
}.

(** [gs] of a constraint fresh from [memset]. *)
Definition gs_zero : list vec2 := repeat (0, 0) CON_MAX_VERTS.

(** [UVSolver]: the three memory pools as lists in allocation order, the
    two hash tables as association lists. *)
Record UVSolver := mkSolver {
  verts : list UVSmoothVert;
  tris : list UVSmoothTri;
  constraints : list UVSmoothConstraint;
  vhash : list (Z * nat);
  fhash : list (nat * nat);
  totarea3d : R;
  totarea2d : R;
  strength : R
}.

Definition set_verts (s : UVSolver) (vs : list UVSmoothVert) : UVSolver :=
  mkSolver vs (tris s) (constraints s) (vhash s) (fhash s) (totarea3d s) (totarea2d s)
    (strength s).

Definition set_uv (sv : UVSmoothVert) (uv : vec2) : UVSmoothVert :=
  mkSV uv (sv_co sv) (sv_v sv) (sv_pinned sv) (sv_boundary sv) (sv_ls sv) (sv_neighbors sv).

Definition add_loop (sv : UVSmoothVert) (l : nat) : UVSmoothVert :=
  mkSV (sv_uv sv) (sv_co sv) (sv_v sv) (sv_pinned sv) (sv_boundary sv) (sv_ls sv ++ [l])
    (sv_neighbors sv).

Definition add_neighbor (sv : UVSmoothVert) (n : nat) : UVSmoothVert :=
  mkSV (sv_uv sv) (sv_co sv) (sv_v sv) (sv_pinned sv) (sv_boundary sv) (sv_ls sv)
    (sv_neighbors sv ++ [n]).

Definition sv_default : UVSmoothVert := mkSV (0, 0) (0, 0, 0) 0 false false [] [].

Definition sv_get (s : UVSolver) (i : nat) : UVSmoothVert := nth i (verts s) sv_default.

(** In-place update of pool entry [i]. *)
Fixpoint list_upd {A} (l : list A) (i : nat) (f : A -> A) : list A :=
  match l, i with
  | [], _ => []
  | x :: r, O => f x :: r
  | x :: r, S i => x :: list_upd r i f
  end.

Definition sv_upd (s : UVSolver) (i : nat) (f : UVSmoothVert -> UVSmoothVert) : UVSolver :=
  set_verts s (list_upd (verts s) i f).

Fixpoint assoc {K} (eqb : K -> K -> bool) (k : K) (m : list (K * nat)) : option nat :=
  match m with
  | [] => None
  | (k', v) :: r => if eqb k k' then Some v else assoc eqb k r
  end.

(** C's float-to-integer conversion: truncation toward zero. *)
Definition Rtrunc (r : R) : Z :=
  if Rle_dec 0 r then Int_part r else (- Int_part (- r))%Z.

(** [uvsolver_calc_loop_key] (its unused snapped [u], [v] omitted). *)
Definition uvsolver_calc_loop_key (uv : vec2) : Z :=
  let x := Rtrunc (fst uv * 16384) in
  let y := Rtrunc (snd uv * 16384) in
  (y * 16384 + x)%Z.

(** [uvsolver_get_vert]: returns the solver and the pool index of the
    vertex. *)
Definition uvsolver_get_vert (s : UVSolver) (uvs : uv_store) (l : BMLoop)
    : UVSolver * nat :=
  let uv := uvs (l_id l) in
  let pkey := uvsolver_calc_loop_key uv in
  let '(s, i) :=
    match assoc Z.eqb pkey (vhash s) with
    | Some i => (s, i)
    | None =>
        let i := length (verts s) in
        (mkSolver (verts s ++ [mkSV uv (l_co l) (l_v l) false false [] []]) (tris s)
           (constraints s) ((pkey, i) :: vhash s) (fhash s) (totarea3d s) (totarea2d s)
           (strength s), i)
    end in
  if Nat.ltb (length (sv_ls (sv_get s i))) MAXUVLOOPS
  then (sv_upd s i (fun sv => add_loop sv (l_id l)), i)
  else (s, i).

Definition area_tri_signed_v2_db (v1 v2 v3 : vec2) : R :=
  0.5 * ((fst v1 - fst v2) * (snd v2 - snd v3) + (snd v1 - snd v2) * (fst v3 - fst v2)).

Definition area_tri_v2_db (v1 v2 v3 : vec2) : R := Rabs (area_tri_signed_v2_db v1 v2 v3).

(** [saacos]/[saacosf]: arc cosine clamped to [[-1, 1]]. *)
Definition saacos (x : R) : R :=
  if Rle_dec x (-1) then PI else if Rle_dec 1 x then 0 else acos x.

(** blenlib's [normalize_v3]: a zero vector stays zero. *)
Definition normalize_v3 (a : vec3) : vec3 :=
  let d := len_v3 a in
  let '(a1, a2, a3) := a in
  if Rlt_dec 0 d then (a1 / d, a2 / d, a3 / d) else (0, 0, 0).

(** The [do { ... } while] loop of [uvsolver_ensure_face] over the loops
    of the face, with its [if (i > 3) break;]. *)
Fixpoint collect_loops (s : UVSolver) (uvs : uv_store) (ls : list BMLoop) (i : nat)
    (vs : list nat) (nocon : bool) : UVSolver * list nat * bool :=
  match ls with
  | [] => (s, vs, nocon)
  | l :: rest =>
      let '(s, sv) := uvsolver_get_vert s uvs l in
      let nocon := nocon || l_seam l in
      let vs := vs ++ [sv] in
      if Nat.ltb 3 i then (s, vs, nocon) else collect_loops s uvs rest (S i) vs nocon
  end.

Definition vs_at (vs : list nat) (k : nat) : nat := nth k vs 0%nat.

(** The nudge of a degenerate UV triangle. *)
Definition perturb_degenerate (s : UVSolver) (v0 v1 v2 : nat) : UVSolver :=
  let s := sv_upd s v0 (fun sv => set_uv sv (fst (sv_uv sv) - 0.0001, snd (sv_uv sv))) in
  let s := sv_upd s v0 (fun sv => set_uv sv (fst (sv_uv sv), snd (sv_uv sv) - 0.0001)) in
  let s := sv_upd s v1 (fun sv => set_uv sv (fst (sv_uv sv) + 0.0001, snd (sv_uv sv))) in
  sv_upd s v2 (fun sv => set_uv sv (fst (sv_uv sv), snd (sv_uv sv) + 0.0001)).

(** The angle constraint and the area constraint of corner [i]. *)
Definition corner_constraints (s : UVSolver) (ti : nat) (vs : list nat) (i : nat)
    : list UVSmoothConstraint :=
  let v0 := vs_at vs ((i + 2) mod 3) in
  let v1 := vs_at vs i in
  let v2 := vs_at vs ((i + 1) mod 3) in
  let t1 := normalize_v3 (sub_v3_v3v3 (sv_co (sv_get s v0)) (sv_co (sv_get s v1))) in
  let t2 := normalize_v3 (sub_v3_v3v3 (sv_co (sv_get s v2)) (sv_co (sv_get s v1))) in
  let th3d := saacos (dot_v3v3 t1 t2) in
  [mkCon CON_ANGLES 0.5 [v0; v1; v2] None gs_zero th3d;
   mkCon CON_AREA 1 [v0; v1; v2] (Some ti) gs_zero 0].

(** [for (int i = 0; !nocon && i < 3; i++)]. *)
Definition add_constraints (s : UVSolver) (ti : nat) (vs : list nat) (nocon : bool)
    : UVSolver :=
  if nocon then s
  else mkSolver (verts s) (tris s)
         (constraints s ++ flat_map (corner_constraints s ti vs) [0; 1; 2]%nat)
         (vhash s) (fhash s) (totarea3d s) (totarea2d s) (strength s).

(** One pass of the neighbour-linking loop. *)
Definition link_edge (s : UVSolver) (v1 v2 : nat) : UVSolver :=
  let ok := negb (existsb (Nat.eqb v2) (sv_neighbors (sv_get s v1))) in
  let ok := ok && Nat.ltb (length (sv_neighbors (sv_get s v1))) MAXUVNEIGHBORS
               && Nat.ltb (length (sv_neighbors (sv_get s v2))) MAXUVNEIGHBORS in
  if negb ok then s
  else
    let s := sv_upd s v1 (fun sv => add_neighbor sv v2) in
    sv_upd s v2 (fun sv => add_neighbor sv v1).

Definition link_neighbors (s : UVSolver) (vs : list nat) : UVSolver :=
  fold_left (fun s i => link_edge s (vs_at vs i) (vs_at vs ((i + 1) mod 3)))
    [0; 1; 2]%nat s.

(** [uvsolver_ensure_face]: returns the solver and the pool index of the
    face's triangle. The writes [tri->vs[3]], [tri->vs[4]] of a face with
    more than three loops fall outside the array in C and are not kept. *)
Definition uvsolver_ensure_face (s : UVSolver) (uvs : uv_store) (f : BMFace)
    : UVSolver * nat :=
  match assoc Nat.eqb (f_id f) (fhash s) with
  | Some ti => (s, ti)
  | None =>
      let ti := length (tris s) in
      let s := mkSolver (verts s) (tris s ++ [mkTri [] 0 0]) (constraints s) (vhash s)
                 ((f_id f, ti) :: fhash s) (totarea3d s) (totarea2d s) (strength s) in
      let '(s, vs, nocon) := collect_loops s uvs (f_loops f) 0 [] false in
      let v0 := vs_at vs 0 in
      let v1 := vs_at vs 1 in
      let v2 := vs_at vs 2 in
      let area3d := area_tri_v3 (sv_co (sv_get s v0)) (sv_co (sv_get s v1))
                      (sv_co (sv_get s v2)) in
      let area2d := area_tri_v2_db (sv_uv (sv_get s v0)) (sv_uv (sv_get s v1))
                      (sv_uv (sv_get s v2)) in
      let s := if Rlt_dec area2d 0.000001 then perturb_degenerate s v0 v1 v2 else s in
      let s := mkSolver (verts s)
                 (list_upd (tris s) ti (fun _ => mkTri [v0; v1; v2] area2d area3d))
                 (constraints s) (vhash s) (fhash s) (totarea3d s + area3d)
                 (totarea2d s + area2d) (strength s) in
      let s := add_constraints s ti [v0; v1; v2] nocon in
      (link_neighbors s [v0; v1; v2], ti)
  end.

(** [uvsolver_new]: empty pools and tables, strength 1. *)
Definition uvsolver_new : UVSolver := mkSolver [] [] [] [] [] 0 0 1.

Definition set_pinned (sv : UVSmoothVert) (b : bool) : UVSmoothVert :=
  mkSV (sv_uv sv) (sv_co sv) (sv_v sv) b (sv_boundary sv) (sv_ls sv) (sv_neighbors sv).

(** [uvsolver_solve_begin]. [loop_faces v] lists the faces [l->f] of the
    loops around mesh vertex [v] ([BM_LOOPS_OF_VERT]); a solver vertex is
    pinned when one of them was never set up in the solver ([fhash]). *)
Definition uvsolver_solve_begin (loop_faces : nat -> list nat) (s : UVSolver) : UVSolver :=
  set_verts s (map (fun sv =>
      set_pinned sv (existsb (fun f => match assoc Nat.eqb f (fhash s) with
                                       | Some _ => false | None => true end)
                       (loop_faces (sv_v sv))))
    (verts s)).

Definition sub_v2 (a b : vec2) : vec2 := (fst a - fst b, snd a - snd b).

(** [normalize_v2_db]. *)
Definition normalize_v2_db (v : vec2) : vec2 :=
  let len := fst v * fst v + snd v * snd v in
  if Rlt_dec len 0.0000001 then (0, 0)
  else let len := sqrt len in
       let mul := 1 / len in
       (fst v * mul, snd v * mul).

Definition con_tri_index (con : UVSmoothConstraint) : nat :=
  match con_tri con with Some t => t | None => 0%nat end.

(** [con->tri->area2d = area2d]. *)
Definition set_tri_area2d (s : UVSolver) (ti : nat) (a : R) : UVSolver :=
  mkSolver (verts s) (list_upd (tris s) ti (fun t => mkTri (tri_vs t) a (tri_area3d t)))
    (constraints s) (vhash s) (fhash s) (totarea3d s) (totarea2d s) (strength s).

(** [uvsolver_eval_constraint]: the residual, and the solver after the
    area case's store into [con->tri->area2d]. *)
Definition uvsolver_eval_constraint_st (s : UVSolver) (con : UVSmoothConstraint)
    : R * UVSolver :=
  let v0 := sv_get s (vs_at (con_vs con) 0) in
  let v1 := sv_get s (vs_at (con_vs con) 1) in
  let v2 := sv_get s (vs_at (con_vs con) 2) in
  match con_type con with
  | CON_ANGLES =>
      let t1 := normalize_v2_db (sub_v2 (sv_uv v0) (sv_uv v1)) in
      let t2 := normalize_v2_db (sub_v2 (sv_uv v2) (sv_uv v1)) in
      let th := saacos (fst t1 * fst t2 + snd t1 * snd t2) in
      let wind := fst t1 * snd t2 - snd t1 * fst t2 in
      let th := if Rle_dec 0 wind then PI - th else th in
      (th - con_params0 con, s)
  | CON_AREA =>
      let tri := nth (con_tri_index con) (tris s) (mkTri [] 0 0) in
      if Req_dec_T (tri_area3d tri) 0 then (0, s)
      else if Req_dec_T (totarea3d s) 0 then (0, s)
      else
        let area2d := area_tri_signed_v2_db (sv_uv v0) (sv_uv v1) (sv_uv v2) in
        let goal := tri_area3d tri * totarea2d s / totarea3d s in
        ((area2d - goal) * 1024, set_tri_area2d s (con_tri_index con) area2d)
  end.

(** The value [uvsolver_eval_constraint] returns. *)
Definition uvsolver_eval_constraint (s : UVSolver) (con : UVSmoothConstraint) : R :=
  fst (uvsolver_eval_constraint_st s con).

(** [uvsolver_vert_weight]. *)
Definition uvsolver_vert_weight (sv : UVSmoothVert) : R :=
  if sv_pinned sv || sv_boundary sv then 100000 else 1.

(** Copy every solver vertex's UV to each of its loops ("update real
    uvs"), in pool order. *)
Definition uvsolver_write_back (s : UVSolver) (uvs : uv_store) : uv_store :=
  fold_left (fun uvs sv => fold_left (fun uvs l => uv_set uvs l (sv_uv sv)) (sv_ls sv) uvs)
    (verts s) uvs.

(** The body of the neighbour loop of [uvsolver_simple_relax]: the sums
    [uv[0]], [uv[1]] and [tot] over the neighbours of [sv1]. *)
Definition relax_sum (vs : list UVSmoothVert) (sv1 : UVSmoothVert) (acc : R * R * R) (j : nat)
    : R * R * R :=
  let '(u, v, tot) := acc in
  match nth_error vs j with
  | None => (u, v, tot)
  | Some sv2 =>
      if sv_boundary sv1 && negb (sv_boundary sv2) then (u, v, tot)
      else (u + fst (sv_uv sv2), v + snd (sv_uv sv2), tot + 1)
  end.

(** The body of the first loop of [uvsolver_simple_relax] for pool entry
    [i]; vertices are updated in place, so a later vertex sees the new UVs
    of earlier ones. *)
Definition relax_vert (strength : R) (vs : list UVSmoothVert) (i : nat) : list UVSmoothVert :=
  let sv1 := nth i vs sv_default in
  if Nat.eqb (length (sv_neighbors sv1)) 0 || sv_pinned sv1 then vs
  else
    let '(u, v, tot) := fold_left (relax_sum vs sv1) (sv_neighbors sv1) (0, 0, 0) in
    if Rlt_dec tot 2 then vs
    else
      let u := u / tot in
      let v := v / tot in
      list_upd vs i (fun sv =>
        set_uv sv (fst (sv_uv sv) + (u - fst (sv_uv sv)) * strength,
                   snd (sv_uv sv) + (v - snd (sv_uv sv)) * strength)).

(** [uvsolver_simple_relax]. *)
Definition uvsolver_simple_relax (s : UVSolver) (strength : R) (uvs : uv_store)
    : UVSolver * uv_store :=
  let s := set_verts s (fold_left (relax_vert strength) (seq 0 (length (verts s))) (verts s)) in
  (s, uvsolver_write_back s uvs).

Definition eval_limit : R := 0.00001.
Definition df : R := 0.0001.

(** Component [j] of a UV, and [sv->uv[j] = x] on pool entry [vi]. *)
Definition uv_comp (uv : vec2) (j : nat) : R := if Nat.eqb j 0 then fst uv else snd uv.

Definition set_uv_comp (s : UVSolver) (vi j : nat) (x : R) : UVSolver :=
  sv_upd s vi (fun sv => set_uv sv (if Nat.eqb j 0 then (x, snd (sv_uv sv))
                                    else (fst (sv_uv sv), x))).

(** [sv->uv[j] += df] on pool entry [vi]. *)
Definition nudge (s : UVSolver) (vi : nat) (j : nat) : UVSolver :=
  sv_upd s vi (fun sv => set_uv sv (if Nat.eqb j 0 then (fst (sv_uv sv) + df, snd (sv_uv sv))
                                    else (fst (sv_uv sv), snd (sv_uv sv) + df))).

(** The constraint pool entry [ci], and an in-place update of it. *)
Definition con_default : UVSmoothConstraint := mkCon CON_ANGLES 0 [] None gs_zero 0.

Definition con_get (s : UVSolver) (ci : nat) : UVSmoothConstraint :=
  nth ci (constraints s) con_default.

Definition con_upd (s : UVSolver) (ci : nat) (f : UVSmoothConstraint -> UVSmoothConstraint)
    : UVSolver :=
  mkSolver (verts s) (tris s) (list_upd (constraints s) ci f) (vhash s) (fhash s)
    (totarea3d s) (totarea2d s) (strength s).

(** [con->gs[i][j] = g]. *)
Definition set_gs (con : UVSmoothConstraint) (i j : nat) (g : R) : UVSmoothConstraint :=
  mkCon (con_type con) (con_k con) (con_vs con) (con_tri con)
    (list_upd (con_gs con) i (fun p => if Nat.eqb j 0 then (g, snd p) else (fst p, g)))
    (con_params0 con).

(** The body of the gradient loop for [con->vs[i]] and component [j] of
    constraint [ci]: the state is the solver, [totg] and [totw]. *)
Definition grad_step (ci : nat) (r1 : R) (acc : UVSolver * R * R) (ij : nat * nat)
    : UVSolver * R * R :=
  let '(s, totg, totw) := acc in
  let '(i, j) := ij in
  let vi := vs_at (con_vs (con_get s ci)) i in
  let orig := uv_comp (sv_uv (sv_get s vi)) j in
  let s := nudge s vi j in
  let '(r2, s) := uvsolver_eval_constraint_st s (con_get s ci) in
  let g := (r2 - r1) / df in
  let s := con_upd s ci (fun con => set_gs con i j g) in
  let totg := totg + g * g in
  let s := set_uv_comp s vi j orig in
  let totw := totw + 1 / uvsolver_vert_weight (sv_get s vi) in
  (s, totg, totw).

(** [for (i = 0; i < con->totvert; i++) for (j = 0; j < 2; j++)]. *)
Definition grad_indices (n : nat) : list (nat * nat) :=
  flat_map (fun i => [(i, 0%nat); (i, 1%nat)]) (seq 0 n).

Definition grad_loop (s : UVSolver) (ci : nat) (r1 : R) : UVSolver * R * R :=
  fold_left (grad_step ci r1) (grad_indices (length (con_vs (con_get s ci)))) (s, 0, 0).

(** The correction: [r1 *= -solver->strength * 0.75 * con->k / totg],
    then each vertex moves along its row of [con->gs], scaled by its
    weight. *)
Definition apply_correction (s : UVSolver) (ci : nat) (r1 totg totw : R) : UVSolver :=
  let con := con_get s ci in
  let r1 := r1 * (- strength s * 0.75 * con_k con / totg) in
  fold_left (fun s i =>
      let vi := vs_at (con_vs con) i in
      let g := nth i (con_gs con) (0, 0) in
      let w := 1 / (uvsolver_vert_weight (sv_get s vi) * totw) in
      sv_upd s vi (fun sv => set_uv sv (fst (sv_uv sv) + r1 * fst g * w,
                                        snd (sv_uv sv) + r1 * snd g * w)))
    (seq 0 (length (con_vs con))) s.

(** One iteration of the constraint loop of [uvsolver_solve_step], for
    pool entry [ci]: the state is the solver, [error] and [totcon]. *)
Definition solve_constraint (acc : UVSolver * R * nat) (ci : nat) : UVSolver * R * nat :=
  let '(s, error, totcon) := acc in
  let '(r1, s) := uvsolver_eval_constraint_st s (con_get s ci) in
  if Rlt_dec (Rabs r1) eval_limit then (s, error, S totcon)
  else
    let error := error + Rabs r1 in
    let totcon := S totcon in
    let '(s, totg, totw) := grad_loop s ci r1 in
    if Rlt_dec totg eval_limit then (s, error, totcon)
    else (apply_correction s ci r1 totg totw, error, totcon).

(** [uvsolver_solve_step]: the returned error, the solver and the loop
    UVs. *)
Definition uvsolver_solve_step (s : UVSolver) (uvs : uv_store) : R * UVSolver * uv_store :=
  if Rlt_dec (strength s) 0 then
    let '(s, uvs) := uvsolver_simple_relax s (Rabs (strength s)) uvs in
    (0, s, uvs)
  else
    let '(s, uvs) := uvsolver_simple_relax s (strength s * 0.1) uvs in
    let '(s, error, totcon) :=
      fold_left solve_constraint (seq 0 (length (constraints s))) (s, 0, 0%nat) in
    (error / INR totcon, s, uvsolver_write_back s uvs).

End UVSolver.

(* ================================================================== *)
(** * Properties *)

(* ------------------------------------------------------------------ *)
(** ** Disk-sort dirty flag *)

Module DiskSortFacts.
Import DiskSort.

(** C3: [SCULPT_dyntopo_check_disk_sort] answers [true] and re-sorts the
    disk cycle exactly when the vertex's [DYNVERT_NEED_DISK_SORT] bit is
    set on entry, leaves that bit clear, and an immediate second call
    answers [false] and changes nothing (no sort). *)
Theorem check_disk_sort_flag_idempotent (M : Z) (E : Type)
    (sortf : list E -> list E) (v : dyn_vert E) :
  let '(sorted, v1) := SCULPT_dyntopo_check_disk_sort M E sortf v in
  (sorted = true <-> Z.land (mv_flag E v) M <> 0%Z) /\
  v_disk E v1 = (if sorted then sortf (v_disk E v) else v_disk E v) /\
  Z.land (mv_flag E v1) M = 0%Z /\
  SCULPT_dyntopo_check_disk_sort M E sortf v1 = (false, v1).
Proof.
  unfold SCULPT_dyntopo_check_disk_sort.
  destruct (Z.land (mv_flag E v) M =? 0)%Z eqn:Hf; simpl.
  - apply Z.eqb_eq in Hf.
    rewrite Hf; simpl.
    split; [split; [discriminate | intros H; contradiction] |].
    split; [reflexivity |].
    split; [reflexivity |].
    reflexivity.
  - apply Z.eqb_neq in Hf.
    assert (Hc : Z.land (Z.land (mv_flag E v) (Z.lnot M)) M = 0%Z).
    { rewrite <- Z.land_assoc, (Z.land_comm (Z.lnot M) M), Z.land_lnot_diag.
      apply Z.land_0_r. }
    split; [split; [intros _; exact Hf | intros _; reflexivity] |].
    split; [reflexivity |].
    split; [exact Hc |].
    rewrite Hc; reflexivity.
Qed.

End DiskSortFacts.

(* ------------------------------------------------------------------ *)
(** ** Dynamic-topology toggle *)

Module ToggleFacts.
Import Toggle.

(** C2: when the check reports [DYNTOPO_ERROR_MULTIRES] for an object in
    the Static state ([ss->bm == NULL]), invoking the toggle returns
    through the error popup ([OPERATOR_INTERFACE]) and the session is
    exactly as before: no boundary-rep mesh, no undo step, nothing else
    changed. *)
Theorem toggle_invoke_multires_blocks (ob : Object) (ss : SculptSession) :
  ss_bm ss = None ->
  Z.land (SCULPT_dynamic_topology_check ob) DYNTOPO_ERROR_MULTIRES <> 0%Z ->
  sculpt_dynamic_topology_toggle_invoke ob ss = (OPERATOR_INTERFACE, ss) /\
  ss_bm (snd (sculpt_dynamic_topology_toggle_invoke ob ss)) = None.
Proof.
  intros Hbm Hmr.
  assert (Hinv : sculpt_dynamic_topology_toggle_invoke ob ss = (OPERATOR_INTERFACE, ss)).
  { unfold sculpt_dynamic_topology_toggle_invoke.
    rewrite Hbm.
    apply Z.eqb_neq in Hmr.
    rewrite Hmr; reflexivity. }
  split; [exact Hinv |].
  rewrite Hinv; exact Hbm.
Qed.

(** An object with one enabled multiresolution modifier and no extra
    custom data, in the Static state. *)
Definition multires_object : Object :=
  mkObject [mkModifier eModifierType_Multires true eModifierTypeType_Constructive] [] [] [].

Definition static_session : SculptSession := mkSession None [] 0 false false.

Lemma toggle_invoke_multires_blocks_witness :
  ss_bm static_session = None /\
  Z.land (SCULPT_dynamic_topology_check multires_object) DYNTOPO_ERROR_MULTIRES <> 0%Z /\
  sculpt_dynamic_topology_toggle_invoke multires_object static_session
    = (OPERATOR_INTERFACE, static_session).
Proof.
  split; [reflexivity |].
  split; [vm_compute; discriminate |].
  apply (toggle_invoke_multires_blocks multires_object static_session);
    [reflexivity | vm_compute; discriminate].
Defined.

End ToggleFacts.

(* ------------------------------------------------------------------ *)
(** ** UV solver *)

Module UVSolverFacts.
Import Geom UVSolver.

(** An empty solver with the given strength, and loop UVs all at the
    origin. *)
Definition empty_solver (st : R) : UVSolver := mkSolver [] [] [] [] [] 0 0 st.

Definition uvs_zero : uv_store := fun _ => (0, 0).

(** A solver holding one triangle set up from the unit right triangle. *)
Definition tri_solver : UVSolver :=
  mkSolver [mkSV (0, 0) (0, 0, 0) 0 false false [0]%nat [1; 2]%nat;
            mkSV (1, 0) (1, 0, 0) 1 false false [1]%nat [0; 2]%nat;
            mkSV (0, 1) (0, 1, 0) 2 false false [2]%nat [0; 1]%nat]
           [mkTri [0; 1; 2]%nat 0.5 0.5]
           [mkCon CON_AREA 1 [0; 1; 2]%nat (Some 0%nat) gs_zero 0]
           [] [(7, 0)]%nat 0.5 0.5 1.

Definition tri_area_con : UVSmoothConstraint :=
  mkCon CON_AREA 1 [0; 1; 2]%nat (Some 0%nat) gs_zero 0.

(** The same solver with a negative strength. *)
Definition neg_tri_solver : UVSolver :=
  mkSolver (verts tri_solver) (tris tri_solver) (constraints tri_solver) (vhash tri_solver)
    (fhash tri_solver) (totarea3d tri_solver) (totarea2d tri_solver) (-1).

(** C9: with a negative strength a solver step is exactly the simple
    relaxation at step size [|strength|] followed by its write-back, and
    returns 0: no constraint is evaluated or applied, and the constraint
    and triangle pools are untouched. *)
Theorem solve_step_negative_strength (s : UVSolver) (uvs : uv_store) :
  strength s < 0 ->
  uvsolver_solve_step s uvs
    = (0, fst (uvsolver_simple_relax s (Rabs (strength s)) uvs),
          snd (uvsolver_simple_relax s (Rabs (strength s)) uvs)) /\
  constraints (fst (uvsolver_simple_relax s (Rabs (strength s)) uvs)) = constraints s /\
  tris (fst (uvsolver_simple_relax s (Rabs (strength s)) uvs)) = tris s.
Proof.
  intros Hneg.
  split; [| split; reflexivity].
  unfold uvsolver_solve_step.
  destruct (Rlt_dec (strength s) 0) as [_ | Hn]; [| lra].
  destruct (uvsolver_simple_relax s (Rabs (strength s)) uvs); reflexivity.
Qed.

Lemma solve_step_negative_strength_witness :
  strength neg_tri_solver < 0 /\ length (constraints neg_tri_solver) = 1%nat /\
  uvsolver_solve_step neg_tri_solver uvs_zero
    = (0, fst (uvsolver_simple_relax neg_tri_solver (Rabs (-1)) uvs_zero),
          snd (uvsolver_simple_relax neg_tri_solver (Rabs (-1)) uvs_zero)) /\
  constraints (fst (uvsolver_simple_relax neg_tri_solver (Rabs (-1)) uvs_zero))
    = constraints neg_tri_solver.
Proof.
  assert (H : strength neg_tri_solver < 0) by (simpl; lra).
  destruct (solve_step_negative_strength neg_tri_solver uvs_zero H) as (E1 & E2 & _).
  split; [exact H | split; [reflexivity | split; [exact E1 | exact E2]]].
Defined.

(** The evaluation stores only into the triangle pool. *)
Lemma eval_st_verts s con :
  verts (snd (uvsolver_eval_constraint_st s con)) = verts s /\
  constraints (snd (uvsolver_eval_constraint_st s con)) = constraints s.
Proof.
  unfold uvsolver_eval_constraint_st.
  destruct (con_type con); [split; reflexivity |].
  destruct (Req_dec_T _ 0); [split; reflexivity |].
  destruct (Req_dec_T _ 0); split; reflexivity.
Qed.

(** Updating an entry and then undoing the update gives the list back. *)
Lemma list_upd_upd_restore {A} (l : list A) i f g d :
  ((i < length l)%nat -> g (f (nth i l d)) = nth i l d) ->
  list_upd (list_upd l i f) i g = l.
Proof.
  revert i; induction l as [| x r IH]; intros [| i] H; simpl; try reflexivity.
  - f_equal. apply H. simpl; lia.
  - f_equal. apply IH. intros Hi. apply H. simpl; lia.
Qed.

(** The gradient loop puts every UV it nudges back: the vertex pool after
    one step is the one before. *)
Lemma grad_step_verts ci r1 acc ij :
  verts (fst (fst (grad_step ci r1 acc ij))) = verts (fst (fst acc)).
Proof.
  destruct acc as [[s totg] totw], ij as [i j]. unfold grad_step.
  destruct (uvsolver_eval_constraint_st (nudge s (vs_at (con_vs (con_get s ci)) i) j)
              (con_get (nudge s (vs_at (con_vs (con_get s ci)) i) j) ci)) as [r2 s2] eqn:E.
  pose proof (proj1 (eval_st_verts (nudge s (vs_at (con_vs (con_get s ci)) i) j)
                       (con_get (nudge s (vs_at (con_vs (con_get s ci)) i) j) ci))) as H2.
  rewrite E in H2. simpl in H2. simpl.
  rewrite H2. unfold nudge, sv_upd, sv_get. simpl.
  apply list_upd_upd_restore with (d := sv_default). intros _.
  destruct (nth _ (verts s) sv_default) as [[u v] co vv p b ls ns].
  unfold set_uv, uv_comp; simpl. destruct (Nat.eqb j 0); reflexivity.
Qed.

Lemma grad_fold_verts ci r1 ijs : forall acc,
  verts (fst (fst (fold_left (grad_step ci r1) ijs acc))) = verts (fst (fst acc)).
Proof.
  induction ijs as [| ij ijs IH]; intros acc; simpl; [reflexivity |].
  rewrite IH. apply grad_step_verts.
Qed.

Lemma grad_loop_verts s ci r1 : verts (fst (fst (grad_loop s ci r1))) = verts s.
Proof. unfold grad_loop. rewrite grad_fold_verts. reflexivity. Qed.

(** C8: in one iteration of the constraint loop of [uvsolver_solve_step],
    for constraint [ci], a residual [r1] below [eval_limit] (1e-5) ends the
    iteration with no correction: the solver is the one left by the
    evaluation, which changes no vertex and no constraint (it only stores
    the triangle's current 2D area). Whenever the iteration changes the
    vertices at all, it is through [apply_correction] (the only place
    dividing by the squared gradient norm [totg]), reached only with
    [|r1| >= eval_limit] and [totg >= eval_limit]. *)
Theorem solve_constraint_guards (s : UVSolver) (error : R) (totcon ci : nat) :
  let r1 := uvsolver_eval_constraint s (con_get s ci) in
  let s1 := snd (uvsolver_eval_constraint_st s (con_get s ci)) in
  let g := grad_loop s1 ci r1 in
  let s' := fst (fst (solve_constraint (s, error, totcon) ci)) in
  (Rabs r1 < eval_limit ->
   solve_constraint (s, error, totcon) ci = (s1, error, S totcon) /\
   verts s1 = verts s /\ constraints s1 = constraints s) /\
  (verts s' = verts s \/
   (eval_limit <= Rabs r1 /\ eval_limit <= snd (fst g) /\
    s' = apply_correction (fst (fst g)) ci r1 (snd (fst g)) (snd g))).
Proof.
  cbv zeta. unfold uvsolver_eval_constraint.
  pose proof (eval_st_verts s (con_get s ci)) as [Hv Hc].
  cbv beta iota delta [solve_constraint].
  destruct (uvsolver_eval_constraint_st s (con_get s ci)) as [r1 s1] eqn:E1.
  simpl in Hv, Hc |- *.
  destruct (Rlt_dec (Rabs r1) eval_limit) as [Hr | Hr].
  - split; [intros _; split; [reflexivity | split; assumption] | left; exact Hv].
  - split; [intros H; lra |].
    pose proof (grad_loop_verts s1 ci r1) as Hg.
    destruct (grad_loop s1 ci r1) as [[s2 totg] totw]. simpl in Hg |- *.
    destruct (Rlt_dec totg eval_limit) as [Ht | Ht].
    + left. simpl. congruence.
    + right. simpl. split; [lra | split; [lra | reflexivity]].
Qed.

Lemma tri_area_residual : uvsolver_eval_constraint tri_solver (con_get tri_solver 0) = 0.
Proof.
  unfold uvsolver_eval_constraint, uvsolver_eval_constraint_st, con_get; cbn -[Req_dec_T].
  destruct (Req_dec_T _ 0) as [H | _]; [lra |].
  unfold area_tri_signed_v2_db; simpl. field; lra.
Qed.

Lemma solve_constraint_guards_witness :
  Rabs (uvsolver_eval_constraint tri_solver (con_get tri_solver 0)) < eval_limit /\
  solve_constraint (tri_solver, 0, 0%nat) 0
    = (snd (uvsolver_eval_constraint_st tri_solver (con_get tri_solver 0)), 0, 1%nat).
Proof.
  assert (Hlt : Rabs (uvsolver_eval_constraint tri_solver (con_get tri_solver 0)) < eval_limit).
  { rewrite tri_area_residual, Rabs_R0; unfold eval_limit; lra. }
  split; [exact Hlt |].
  exact (proj1 (proj1 (solve_constraint_guards tri_solver 0 0%nat 0%nat) Hlt)).
Defined.

(** Only [add_constraints] touches the constraint pool of the face setup. *)
Lemma get_vert_constraints s uvs l :
  constraints (fst (uvsolver_get_vert s uvs l)) = constraints s.
Proof.
  unfold uvsolver_get_vert.
  destruct (assoc Z.eqb _ (vhash s)) as [i |]; simpl;
    destruct (Nat.ltb _ MAXUVLOOPS); reflexivity.
Qed.

Lemma collect_loops_constraints ls : forall s uvs i vs nocon,
  constraints (fst (fst (collect_loops s uvs ls i vs nocon))) = constraints s.
Proof.
  induction ls as [| l rest IH]; intros s uvs i vs nocon; simpl; [reflexivity |].
  destruct (uvsolver_get_vert s uvs l) as [s1 sv] eqn:Eg.
  assert (Hs1 : constraints s1 = constraints s).
  { change s1 with (fst (s1, sv)). rewrite <- Eg. apply get_vert_constraints. }
  destruct (Nat.ltb 3 i); simpl; [exact Hs1 |].
  rewrite IH; exact Hs1.
Qed.

(** The seam flag computed by the loop: every loop it visits is checked,
    and a face of at most five loops is visited whole. *)
Lemma collect_loops_nocon ls : forall s uvs i vs nocon,
  (length ls + i <= 5)%nat ->
  snd (collect_loops s uvs ls i vs nocon) = nocon || existsb l_seam ls.
Proof.
  induction ls as [| l rest IH]; intros s uvs i vs nocon Hlen; simpl.
  - rewrite orb_false_r; reflexivity.
  - destruct (uvsolver_get_vert s uvs l) as [s1 sv].
    destruct (Nat.ltb 3 i) eqn:Hi.
    + apply Nat.ltb_lt in Hi. simpl in Hlen.
      destruct rest as [| l' rest']; [| simpl in Hlen; lia].
      simpl. rewrite orb_false_r; reflexivity.
    + simpl in Hlen. rewrite IH by lia. rewrite orb_assoc; reflexivity.
Qed.

Lemma link_neighbors_constraints s vs :
  constraints (link_neighbors s vs) = constraints s.
Proof.
  unfold link_neighbors. simpl.
  unfold link_edge.
  repeat match goal with
         | |- context [if ?b then _ else _] => destruct b
         end; reflexivity.
Qed.

Lemma perturb_constraints s a b c :
  constraints (perturb_degenerate s a b c) = constraints s.
Proof. reflexivity. Qed.

(** C6: setting up a face (of at most five corners; the solver's faces
    are triangles) that has a seam edge adds no constraint at all: the
    constraint pool after [uvsolver_ensure_face] is the one before. *)
Theorem ensure_face_seam_no_constraints (s : UVSolver) (uvs : uv_store) (f : BMFace) :
  (length (f_loops f) <= 5)%nat ->
  existsb l_seam (f_loops f) = true ->
  constraints (fst (uvsolver_ensure_face s uvs f)) = constraints s.
Proof.
  intros Hlen Hseam.
  unfold uvsolver_ensure_face.
  destruct (assoc Nat.eqb (f_id f) (fhash s)) as [ti |]; [reflexivity |].
  set (s0 := mkSolver _ _ _ _ _ _ _ _).
  destruct (collect_loops s0 uvs (f_loops f) 0 [] false) as [[s1 vs] nocon] eqn:Ec.
  assert (Hn : nocon = true).
  { change nocon with (snd (s1, vs, nocon)). rewrite <- Ec.
    rewrite collect_loops_nocon by lia. exact Hseam. }
  assert (Hc : constraints s1 = constraints s0).
  { change s1 with (fst (fst (s1, vs, nocon))). rewrite <- Ec.
    apply collect_loops_constraints. }
  subst nocon. simpl.
  rewrite link_neighbors_constraints. simpl.
  destruct (Rlt_dec _ 0.000001); simpl; exact Hc.
Qed.

(** A triangle with a seam on its first edge. *)
Definition seam_triangle : BMFace :=
  mkFace 0 [mkLoop 0 0 (0, 0, 0) true; mkLoop 1 1 (1, 0, 0) false;
            mkLoop 2 2 (0, 1, 0) false].

Lemma ensure_face_seam_no_constraints_witness :
  (length (f_loops seam_triangle) <= 5)%nat /\
  existsb l_seam (f_loops seam_triangle) = true /\
  constraints (fst (uvsolver_ensure_face (empty_solver 1) uvs_zero seam_triangle)) = [].
Proof.
  split; [simpl; lia |].
  split; [reflexivity |].
  apply (ensure_face_seam_no_constraints (empty_solver 1) uvs_zero seam_triangle);
    [simpl; lia | reflexivity].
Defined.

(** [list_upd] leaves every other entry alone. *)
Lemma nth_list_upd_neq {A} (l : list A) i j f d :
  i <> j -> nth i (list_upd l j f) d = nth i l d.
Proof.
  revert i j; induction l as [| x r IH]; intros i j Hij; [reflexivity |].
  destruct j as [| j]; destruct i as [| i]; simpl; try reflexivity.
  - congruence.
  - apply IH; lia.
Qed.

Lemma nth_list_upd_eq {A} (l : list A) i f d :
  (i < length l)%nat -> nth i (list_upd l i f) d = f (nth i l d).
Proof.
  revert i; induction l as [| x r IH]; intros i Hi; simpl in Hi; [lia |].
  destruct i as [| i]; simpl; [reflexivity |].
  apply IH; lia.
Qed.

(** One relaxation step on entry [j] changes no other entry. *)
Lemma relax_vert_other st vs i j :
  i <> j -> nth i (relax_vert st vs j) sv_default = nth i vs sv_default.
Proof.
  intros Hij. unfold relax_vert.
  destruct (_ || _); [reflexivity |].
  destruct (fold_left _ _ _) as [[u v] tot].
  destruct (Rlt_dec tot 2); [reflexivity |].
  apply nth_list_upd_neq; exact Hij.
Qed.

Definition skipped_by_relax (sv : UVSmoothVert) : Prop :=
  sv_pinned sv = true \/ sv_neighbors sv = [].

Lemma relax_vert_skipped st vs i j :
  skipped_by_relax (nth i vs sv_default) ->
  nth i (relax_vert st vs j) sv_default = nth i vs sv_default.
Proof.
  intros Hsk.
  destruct (Nat.eq_dec i j) as [-> | Hij]; [| apply relax_vert_other; exact Hij].
  unfold relax_vert.
  destruct Hsk as [Hp | Hn].
  - rewrite Hp, orb_true_r; reflexivity.
  - rewrite Hn; reflexivity.
Qed.

Lemma relax_fold_skipped st idx : forall vs i,
  skipped_by_relax (nth i vs sv_default) ->
  nth i (fold_left (relax_vert st) idx vs) sv_default = nth i vs sv_default.
Proof.
  induction idx as [| j idx IH]; intros vs i Hsk; simpl; [reflexivity |].
  rewrite IH.
  - apply relax_vert_skipped; exact Hsk.
  - rewrite relax_vert_skipped; exact Hsk.
Qed.

Lemma relax_fold_other st idx : forall vs i,
  ~ In i idx ->
  nth i (fold_left (relax_vert st) idx vs) sv_default = nth i vs sv_default.
Proof.
  induction idx as [| j idx IH]; intros vs i Hn; simpl; [reflexivity |].
  rewrite IH by (intros H; apply Hn; right; exact H).
  apply relax_vert_other. intros ->. apply Hn; left; reflexivity.
Qed.

Lemma length_list_upd' {A} (l : list A) i f : length (list_upd l i f) = length l.
Proof.
  revert i; induction l as [| x r IH]; intros [| i]; simpl; try reflexivity.
  rewrite IH; reflexivity.
Qed.

Lemma relax_fold_length st idx : forall vs,
  length (fold_left (relax_vert st) idx vs) = length vs.
Proof.
  induction idx as [| j idx IH]; intros vs; simpl; [reflexivity |].
  rewrite IH. unfold relax_vert.
  destruct (_ || _); [reflexivity |].
  destruct (fold_left _ _ _) as [[u v] tot].
  destruct (Rlt_dec tot 2); [reflexivity | apply length_list_upd'].
Qed.

(** The UVs of the boundary vertices among the pool entries [ns], in
    order; an index outside the pool is skipped. *)
Fixpoint boundary_neighbor_uvs (vs : list UVSmoothVert) (ns : list nat) : list vec2 :=
  match ns with
  | [] => []
  | j :: ns =>
      match nth_error vs j with
      | Some sv2 => if sv_boundary sv2 then sv_uv sv2 :: boundary_neighbor_uvs vs ns
                    else boundary_neighbor_uvs vs ns
      | None => boundary_neighbor_uvs vs ns
      end
  end.

Lemma boundary_neighbor_uvs_length vs ns :
  (length (boundary_neighbor_uvs vs ns) <= length ns)%nat.
Proof.
  induction ns as [| j ns IH]; simpl; [lia |].
  destruct (nth_error vs j) as [sv2 |]; [destruct (sv_boundary sv2); simpl |]; lia.
Qed.

(** For a boundary vertex the neighbour loop sums exactly its boundary
    neighbours. *)
Lemma relax_sum_boundary vs sv1 ns : forall u v tot,
  sv_boundary sv1 = true ->
  fold_left (relax_sum vs sv1) ns (u, v, tot)
  = (u + Cotan.sum_list (map fst (boundary_neighbor_uvs vs ns)),
     v + Cotan.sum_list (map snd (boundary_neighbor_uvs vs ns)),
     tot + INR (length (boundary_neighbor_uvs vs ns))).
Proof.
  induction ns as [| j ns IH]; intros u v tot Hb; cbn [fold_left boundary_neighbor_uvs].
  - simpl. repeat apply (f_equal2 pair); ring.
  - unfold relax_sum at 2. rewrite Hb.
    destruct (nth_error vs j) as [sv2 |].
    + destruct (sv_boundary sv2); cbn [andb negb]; rewrite IH by exact Hb;
        [| reflexivity].
      unfold Cotan.sum_list. cbn [length map fold_right]. rewrite S_INR.
      repeat apply (f_equal2 pair); ring.
    + apply IH; exact Hb.
Qed.

(** C7 (as the code has it): the simple relaxation pass leaves the UV of
    every pinned solver vertex, and of every vertex without neighbours,
    unchanged. A boundary vertex that is not pinned is not skipped: when
    at least two of its neighbours are boundary vertices it moves, by the
    step size [st], toward the average of their UVs, taken as they are
    when the pass reaches it (neighbours earlier in the pool already
    moved). *)
Theorem simple_relax_keeps_pinned (s : UVSolver) (st : R) (uvs : uv_store) (i : nat) :
  (sv_pinned (sv_get s i) = true \/ sv_neighbors (sv_get s i) = [] ->
   sv_uv (sv_get (fst (uvsolver_simple_relax s st uvs)) i) = sv_uv (sv_get s i)) /\
  ((i < length (verts s))%nat -> sv_pinned (sv_get s i) = false ->
   sv_boundary (sv_get s i) = true ->
   let pre := fold_left (relax_vert st) (seq 0 i) (verts s) in
   let nb := boundary_neighbor_uvs pre (sv_neighbors (sv_get s i)) in
   let uv := sv_uv (sv_get s i) in
   (2 <= length nb)%nat ->
   sv_uv (sv_get (fst (uvsolver_simple_relax s st uvs)) i)
   = (fst uv + (Cotan.sum_list (map fst nb) / INR (length nb) - fst uv) * st,
      snd uv + (Cotan.sum_list (map snd nb) / INR (length nb) - snd uv) * st)).
Proof.
  split.
  - intros Hsk. unfold uvsolver_simple_relax, sv_get; simpl.
    rewrite relax_fold_skipped; [reflexivity | exact Hsk].
  - intros Hi Hp Hb pre nb uv H2.
    set (n := length (verts s)) in Hi.
    assert (Hs : seq 0 n = seq 0 i ++ i :: seq (S i) (n - S i)).
    { replace n with (i + S (n - S i))%nat at 1 by lia. rewrite seq_app. reflexivity. }
    unfold uvsolver_simple_relax, sv_get; simpl. fold n. rewrite Hs, fold_left_app.
    cbn [fold_left]. fold pre.
    rewrite relax_fold_other by (rewrite in_seq; lia).
    assert (Hpre : nth i pre sv_default = sv_get s i).
    { unfold pre, sv_get. apply relax_fold_other. rewrite in_seq; lia. }
    assert (Hlen : length pre = n) by (unfold pre; apply relax_fold_length).
    unfold relax_vert. rewrite Hpre, Hp.
    assert (Hne : Nat.eqb (length (sv_neighbors (sv_get s i))) 0 = false).
    { apply Nat.eqb_neq. pose proof (boundary_neighbor_uvs_length pre (sv_neighbors (sv_get s i))).
      fold nb in H. lia. }
    rewrite Hne. simpl orb. cbv iota.
    rewrite relax_sum_boundary by exact Hb. fold nb.
    rewrite !Rplus_0_l.
    destruct (Rlt_dec (INR (length nb)) 2) as [Hl | _].
    { apply le_INR in H2. simpl in H2. lra. }
    rewrite nth_list_upd_eq by lia. rewrite Hpre. reflexivity.
Qed.

(** Three boundary vertices, linked to one another, none pinned. *)
Definition boundary_ring : UVSolver :=
  mkSolver [mkSV (0, 0) (0, 0, 0) 0%nat false true [0%nat] [1%nat; 2%nat];
            mkSV (1, 0) (1, 0, 0) 1%nat false true [1%nat] [0%nat; 2%nat];
            mkSV (0, 1) (0, 1, 0) 2%nat false true [2%nat] [0%nat; 1%nat]]
           [] [] [] [] 0 0 1.

(** The same ring with its first vertex pinned. *)
Definition pinned_ring : UVSolver :=
  set_verts boundary_ring
    [mkSV (0, 0) (0, 0, 0) 0%nat true true [0%nat] [1%nat; 2%nat];
     mkSV (1, 0) (1, 0, 0) 1%nat false true [1%nat] [0%nat; 2%nat];
     mkSV (0, 1) (0, 1, 0) 2%nat false true [2%nat] [0%nat; 1%nat]].

(** The second vertex of the ring sees the first one already moved. *)
Lemma boundary_ring_nb1 :
  boundary_neighbor_uvs (fold_left (relax_vert 0.1) (seq 0 1) (verts boundary_ring))
    (sv_neighbors (sv_get boundary_ring 1)) = [(0.05, 0.05); (0, 1)].
Proof.
  cbn [seq fold_left]. unfold relax_vert. cbn -[Rlt_dec relax_sum].
  unfold relax_sum. cbn -[Rlt_dec Rplus Rminus Rmult Rdiv IZR].
  destruct (Rlt_dec _ 2) as [H | _]; [lra |].
  cbn -[Rplus Rminus Rmult Rdiv IZR]. apply (f_equal2 cons); [| reflexivity].
  apply (f_equal2 pair); unfold Q2R; cbn [QArith_base.Qnum QArith_base.Qden]; field.
Qed.

Lemma simple_relax_keeps_pinned_witness :
  ((sv_pinned (sv_get pinned_ring 0) = true \/ sv_neighbors (sv_get pinned_ring 0) = []) /\
   sv_uv (sv_get (fst (uvsolver_simple_relax pinned_ring 0.1 uvs_zero)) 0)
   = sv_uv (sv_get pinned_ring 0)) /\
  ((1 < length (verts boundary_ring))%nat /\ sv_pinned (sv_get boundary_ring 1) = false /\
   sv_boundary (sv_get boundary_ring 1) = true /\
   (2 <= length (boundary_neighbor_uvs (fold_left (relax_vert 0.1) (seq 0 1)
                                          (verts boundary_ring))
                   (sv_neighbors (sv_get boundary_ring 1))))%nat /\
   sv_uv (sv_get (fst (uvsolver_simple_relax boundary_ring 0.1 uvs_zero)) 1)
   = (1 + ((0.05 + (0 + 0)) / 2 - 1) * 0.1, 0 + ((0.05 + (1 + 0)) / 2 - 0) * 0.1)).
Proof.
  assert (Hp : sv_pinned (sv_get pinned_ring 0) = true \/
               sv_neighbors (sv_get pinned_ring 0) = []) by (left; reflexivity).
  split; [split; [exact Hp | exact (proj1 (simple_relax_keeps_pinned pinned_ring 0.1 uvs_zero 0) Hp)] |].
  assert (H1 : (1 < length (verts boundary_ring))%nat) by (simpl; lia).
  assert (H2 : (2 <= length (boundary_neighbor_uvs (fold_left (relax_vert 0.1) (seq 0 1)
                                                     (verts boundary_ring))
                              (sv_neighbors (sv_get boundary_ring 1))))%nat)
    by (rewrite boundary_ring_nb1; simpl; lia).
  split; [exact H1 | split; [reflexivity | split; [reflexivity | split; [exact H2 |]]]].
  rewrite (proj2 (simple_relax_keeps_pinned boundary_ring 0.1 uvs_zero 1) H1 eq_refl eq_refl H2).
  rewrite boundary_ring_nb1. simpl. f_equal; field.
Defined.

(** C7 refuted: a boundary vertex that is not pinned is not skipped by
    the pass; with two boundary neighbours it moves toward their average. *)
Lemma simple_relax_moves_boundary_vertex :
  sv_boundary (sv_get boundary_ring 0) = true /\
  sv_uv (sv_get (fst (uvsolver_simple_relax boundary_ring 0.1 uvs_zero)) 0)
    = (0.05, 0.05).
Proof.
  split; [reflexivity |].
  unfold uvsolver_simple_relax, sv_get; simpl (verts _).
  simpl (length _). simpl (seq _ _).
  cbn [fold_left].
  rewrite (relax_vert_other _ _ 0 2) by lia.
  rewrite (relax_vert_other _ _ 0 1) by lia.
  unfold relax_vert. cbn -[Rlt_dec].
  destruct (Rlt_dec (0 + 1 + 1) 2) as [H | _]; [lra |].
  cbn. f_equal; lra.
Qed.

(** Truncation of a non-negative integer-valued real. *)
Lemma Rtrunc_IZR (z : Z) : (0 <= z)%Z -> Rtrunc (IZR z) = z.
Proof.
  intros Hz. unfold Rtrunc.
  destruct (Rle_dec 0 (IZR z)) as [_ | Hn]; [| exfalso; apply Hn; apply IZR_le; exact Hz].
  unfold Int_part.
  rewrite <- (tech_up (IZR z) (z + 1)); [lia | |].
  - rewrite plus_IZR; lra.
  - rewrite plus_IZR; lra.
Qed.

Lemma loop_key_origin : uvsolver_calc_loop_key (0, 0) = 0%Z.
Proof.
  unfold uvsolver_calc_loop_key; simpl.
  rewrite Rmult_0_l, Rtrunc_IZR by lia. reflexivity.
Qed.

Lemma loop_key_unit_u : uvsolver_calc_loop_key (1, 0) = 16384%Z.
Proof.
  unfold uvsolver_calc_loop_key; simpl.
  rewrite Rmult_0_l, Rmult_1_l, !Rtrunc_IZR by lia. reflexivity.
Qed.

(** A triangle whose first two corners share one UV position (a
    collapsed UV edge); the third corner is at [(1, 0)]. *)
Definition collapsed_uv_triangle : BMFace :=
  mkFace 0 [mkLoop 0 0 (0, 0, 0) false; mkLoop 1 1 (1, 0, 0) false;
            mkLoop 2 2 (0, 1, 0) false].

Definition collapsed_uvs : uv_store :=
  fun l => if Nat.eqb l 2 then (1, 0) else (0, 0).

(** C10 fails: setting up that triangle in an empty solver merges the
    two coincident corners into solver vertex 0, and the neighbour-linking
    loop, whose duplicate test never looks at an edge from a vertex to
    itself, records vertex 0 twice among its own neighbours. *)
Theorem ensure_face_records_self_neighbor_twice :
  sv_neighbors (sv_get (fst (uvsolver_ensure_face (empty_solver 1) collapsed_uvs
                                 collapsed_uv_triangle)) 0)
    = [0%nat; 0%nat; 1%nat].
Proof.
  unfold uvsolver_ensure_face, collect_loops, uvsolver_get_vert, collapsed_uvs.
  cbn -[uvsolver_calc_loop_key Rlt_dec].
  rewrite ?loop_key_origin, ?loop_key_unit_u.
  cbn -[Rlt_dec].
  destruct (Rlt_dec _ _); reflexivity.
Qed.

End UVSolverFacts.

(* ------------------------------------------------------------------ *)
(** ** Temporary custom-data layers *)

Module TempLayerFacts.
Import TempLayer.

Definition named (type : nat) (name : string) (l : CustomDataLayer) : bool :=
  Nat.eqb (cl_type l) type && String.eqb (cl_name l) name.

Definition typed (type : nat) (l : CustomDataLayer) : bool := Nat.eqb (cl_type l) type.

(** [find_layer] returns -1 when no layer matches, and otherwise the
    position of the first match. *)
Lemma find_layer_spec p ls :
  (find_layer p ls = (-1)%Z /\ existsb p ls = false) \/
  (exists i x, find_layer p ls = Z.of_nat i /\ nth_error ls i = Some x /\ p x = true /\
     forall k y, (k < i)%nat -> nth_error ls k = Some y -> p y = false).
Proof.
  induction ls as [| l rest IH]; simpl.
  - left; split; reflexivity.
  - destruct (p l) eqn:Hp.
    + right. exists 0%nat, l. split; [reflexivity |]. split; [reflexivity |].
      split; [exact Hp | intros k y Hk; lia].
    + destruct IH as [[Hf He] | (i & x & Hf & Hn & Hx & Hmin)].
      * left. rewrite Hf. split; [reflexivity | exact He].
      * right. exists (S i), x. rewrite Hf.
        assert (Hi : (Z.of_nat i <? 0)%Z = false) by (apply Z.ltb_ge; lia).
        rewrite Hi. split; [lia |]. split; [exact Hn |]. split; [exact Hx |].
        intros [| k] y Hk Hy; simpl in Hy.
        -- inversion Hy; subst; exact Hp.
        -- apply (Hmin k); [lia | exact Hy].
Qed.

Lemma nth_error_existsb (p : CustomDataLayer -> bool) ls i x :
  nth_error ls i = Some x -> p x = true -> existsb p ls = true.
Proof.
  intros Hn Hx. apply existsb_exists. exists x. split; [| exact Hx].
  eapply nth_error_In; exact Hn.
Qed.

(** Once the named layer exists, its offset lookup succeeds and returns
    that layer's offset. *)
Lemma get_templayer_found cd type name :
  (0 <= CustomData_get_named_layer_index cd type name)%Z ->
  exists i x, CustomData_get_named_layer_index cd type name = Z.of_nat i /\
    nth_error cd i = Some x /\ named type name x = true /\
    SCULPT_dyntopo_get_templayer cd type name = Z.of_nat (cl_offset x).
Proof.
  intros Hge.
  unfold SCULPT_dyntopo_get_templayer.
  destruct (find_layer_spec (named type name) cd) as [[Hf _] | (i & x & Hf & Hn & Hx & _)];
    unfold CustomData_get_named_layer_index in *; fold (named type name) in *;
    rewrite Hf in *; [lia |].
  exists i, x. split; [reflexivity |]. split; [exact Hn |]. split; [exact Hx |].
  assert (Hi : (Z.of_nat i <? 0)%Z = false) by (apply Z.ltb_ge; lia).
  rewrite Hi.
  assert (Hty : typed type x = true).
  { unfold named in Hx; unfold typed. apply andb_true_iff in Hx. tauto. }
  unfold CustomData_get_n_offset, CustomData_get_layer_index_n, CustomData_get_layer_index.
  fold (typed type).
  destruct (find_layer_spec (typed type) cd) as [[_ He] | (j & y & Hj & Hnj & Hy & Hmin)].
  - rewrite (nth_error_existsb _ _ _ _ Hn Hty) in He. discriminate.
  - rewrite Hj.
    assert (Hji : (j <= i)%nat).
    { destruct (Nat.le_gt_cases j i) as [H | H]; [exact H |].
      rewrite (Hmin i x H Hn) in Hty. discriminate. }
    assert (Hm1 : (Z.of_nat j =? -1)%Z = false) by (apply Z.eqb_neq; lia).
    rewrite Hm1.
    replace (Z.of_nat j + (Z.of_nat i - Z.of_nat j))%Z with (Z.of_nat i) by lia.
    unfold layer_at. rewrite Hi, Nat2Z.id, Hn.
    unfold typed in Hty. rewrite Hty.
    rewrite Hi, Nat2Z.id, Hn. reflexivity.
Qed.

Lemma find_layer_set_flag type name cd li f :
  find_layer (named type name) (set_layer_flag cd li f) = find_layer (named type name) cd.
Proof.
  revert li; induction cd as [| l rest IH]; intros [| li]; simpl; try reflexivity.
  rewrite IH; reflexivity.
Qed.

Lemma length_set_flag cd li f : length (set_layer_flag cd li f) = length cd.
Proof.
  revert li; induction cd as [| l rest IH]; intros [| li]; simpl; try reflexivity.
  rewrite IH; reflexivity.
Qed.

Lemma update_offsets_length sz n cd : length (update_offsets sz n cd) = length cd.
Proof.
  revert n; induction cd as [| l rest IH]; intros n; simpl; [reflexivity |].
  rewrite IH; reflexivity.
Qed.

Lemma update_offsets_existsb sz type name n cd :
  existsb (named type name) (update_offsets sz n cd) = existsb (named type name) cd.
Proof.
  revert n; induction cd as [| l rest IH]; intros n; simpl; [reflexivity |].
  rewrite IH; reflexivity.
Qed.

Lemma insert_rev_length x rl : length (insert_rev x rl) = S (length rl).
Proof.
  induction rl as [| y r IH]; simpl; [reflexivity |].
  destruct (Nat.ltb _ _); simpl; [rewrite IH |]; reflexivity.
Qed.

Lemma insert_rev_existsb p x rl :
  existsb p (insert_rev x rl) = p x || existsb p rl.
Proof.
  induction rl as [| y r IH]; simpl; [rewrite orb_false_r; reflexivity |].
  destruct (Nat.ltb _ _); simpl.
  - rewrite IH. destruct (p x), (p y); reflexivity.
  - reflexivity.
Qed.

Lemma existsb_rev {A} (p : A -> bool) l : existsb p (rev l) = existsb p l.
Proof.
  induction l as [| x r IH]; simpl; [reflexivity |].
  rewrite existsb_app, IH; simpl. rewrite orb_false_r, orb_comm; reflexivity.
Qed.

Lemma existsb_find_nonneg p ls : existsb p ls = true -> (0 <= find_layer p ls)%Z.
Proof.
  intros He. destruct (find_layer_spec p ls) as [[_ Hf] | (i & x & Hf & _)].
  - congruence.
  - rewrite Hf; lia.
Qed.

(** A layer predicate that reads only the layer's type and name. *)
Definition tn_only (p : CustomDataLayer -> bool) : Prop :=
  forall l l', cl_type l = cl_type l' -> cl_name l = cl_name l' -> p l = p l'.

Lemma tn_only_named type name : tn_only (named type name).
Proof. intros l l' Ht Hn. unfold named. rewrite Ht, Hn. reflexivity. Qed.

Lemma tn_only_typed type : tn_only (typed type).
Proof. intros l l' Ht Hn. unfold typed. rewrite Ht. reflexivity. Qed.

Lemma find_layer_set_flag_tn p cd li f :
  tn_only p -> find_layer p (set_layer_flag cd li f) = find_layer p cd.
Proof.
  intros Hp. revert li; induction cd as [| l rest IH]; intros [| li]; simpl; try reflexivity.
  - rewrite (Hp (mkLayer _ _ _ _) l); reflexivity.
  - rewrite IH; reflexivity.
Qed.

Lemma existsb_set_flag_tn p cd li f :
  tn_only p -> existsb p (set_layer_flag cd li f) = existsb p cd.
Proof.
  intros Hp. revert li; induction cd as [| l rest IH]; intros [| li]; simpl; try reflexivity.
  - rewrite (Hp (mkLayer _ _ _ _) l); reflexivity.
  - rewrite IH; reflexivity.
Qed.

Lemma existsb_update_offsets_tn p sz n cd :
  tn_only p -> existsb p (update_offsets sz n cd) = existsb p cd.
Proof.
  intros Hp. revert n; induction cd as [| l rest IH]; intros n; simpl; [reflexivity |].
  rewrite IH, (Hp (mkLayer _ _ _ _) l); reflexivity.
Qed.

(** [BM_data_layer_add_named] adds one layer of that type and name and
    keeps every other layer's type and name. *)
Lemma existsb_add_named_tn p sz cd t n :
  tn_only p ->
  existsb p (BM_data_layer_add_named sz cd t n) = p (mkLayer t n 0 0) || existsb p cd.
Proof.
  intros Hp. unfold BM_data_layer_add_named.
  rewrite existsb_update_offsets_tn, existsb_rev, insert_rev_existsb, existsb_rev by exact Hp.
  reflexivity.
Qed.

Lemma add_named_length sz cd t n :
  length (BM_data_layer_add_named sz cd t n) = S (length cd).
Proof.
  unfold BM_data_layer_add_named.
  rewrite update_offsets_length, length_rev, insert_rev_length, length_rev. reflexivity.
Qed.

Lemma find_nonneg_iff p ls : (0 <= find_layer p ls)%Z <-> existsb p ls = true.
Proof.
  destruct (find_layer_spec p ls) as [[Hf He] | (i & x & Hf & Hn & Hx & _)].
  - rewrite Hf, He. split; [lia | discriminate].
  - rewrite Hf, (nth_error_existsb _ _ _ _ Hn Hx). split; [reflexivity | lia].
Qed.

(** The layers that satisfy a request. *)
Definition req_pred (r : BMCustomLayerReq) : CustomDataLayer -> bool :=
  match req_name r with
  | Some m => named (req_type r) m
  | None => typed (req_type r)
  end.

Lemma tn_only_req r : tn_only (req_pred r).
Proof. unfold req_pred. destruct (req_name r); [apply tn_only_named | apply tn_only_typed]. Qed.

Lemma req_index_nonneg cd r : (0 <= req_index cd r)%Z <-> existsb (req_pred r) cd = true.
Proof.
  unfold req_index, req_pred. destruct (req_name r); apply find_nonneg_iff.
Qed.

Lemma req_pred_new sz dn cd r :
  existsb (req_pred r)
    (BM_data_layer_add_named sz cd (req_type r)
       (match req_name r with Some n => n | None => dn (req_type r) end)) = true.
Proof.
  rewrite existsb_add_named_tn by apply tn_only_req.
  unfold req_pred. destruct (req_name r); unfold named, typed; simpl;
    rewrite Nat.eqb_refl; [rewrite String.eqb_refl |]; reflexivity.
Qed.

(** One request of [BM_data_layers_ensure]. *)
Definition ensure_step sz dn (cd : list CustomDataLayer) (r : BMCustomLayerReq)
    : list CustomDataLayer :=
  if (req_index cd r <? 0)%Z then
    let cd := BM_data_layer_add_named sz cd (req_type r)
                (match req_name r with Some n => n | None => dn (req_type r) end) in
    set_layer_flag cd (Z.to_nat (req_index cd r)) (req_flag r)
  else cd.

Lemma layers_ensure_fold sz dn cd reqs :
  BM_data_layers_ensure sz dn cd reqs = fold_left (ensure_step sz dn) reqs cd.
Proof. reflexivity. Qed.

Lemma ensure_step_mono p sz dn cd r :
  tn_only p -> existsb p cd = true -> existsb p (ensure_step sz dn cd r) = true.
Proof.
  intros Hp He. unfold ensure_step. destruct (req_index cd r <? 0)%Z; [| exact He].
  rewrite existsb_set_flag_tn, existsb_add_named_tn, He by exact Hp. apply orb_true_r.
Qed.

Lemma ensure_step_sat sz dn cd r : existsb (req_pred r) (ensure_step sz dn cd r) = true.
Proof.
  unfold ensure_step. destruct (req_index cd r <? 0)%Z eqn:E.
  - rewrite existsb_set_flag_tn by apply tn_only_req. apply req_pred_new.
  - apply Z.ltb_ge in E. apply req_index_nonneg. exact E.
Qed.

Lemma ensure_step_length sz dn cd r :
  (length cd <= length (ensure_step sz dn cd r) <= S (length cd))%nat.
Proof.
  unfold ensure_step. destruct (req_index cd r <? 0)%Z; [| lia].
  rewrite length_set_flag, add_named_length. lia.
Qed.

Lemma layers_ensure_mono p sz dn reqs : forall cd,
  tn_only p -> existsb p cd = true -> existsb p (BM_data_layers_ensure sz dn cd reqs) = true.
Proof.
  induction reqs as [| r rest IH]; intros cd Hp He; [exact He |].
  rewrite layers_ensure_fold. simpl. rewrite <- layers_ensure_fold.
  apply IH; [exact Hp | apply ensure_step_mono; assumption].
Qed.

(** After [BM_data_layers_ensure] every request is satisfied. *)
Lemma layers_ensure_sat sz dn reqs : forall cd r,
  In r reqs -> existsb (req_pred r) (BM_data_layers_ensure sz dn cd reqs) = true.
Proof.
  induction reqs as [| r0 rest IH]; intros cd r Hin; [destruct Hin |].
  rewrite layers_ensure_fold. simpl. rewrite <- layers_ensure_fold.
  destruct Hin as [<- | Hin].
  - apply layers_ensure_mono; [apply tn_only_req | apply ensure_step_sat].
  - apply IH; exact Hin.
Qed.

Lemma layers_ensure_length sz dn reqs : forall cd,
  (length cd <= length (BM_data_layers_ensure sz dn cd reqs) <= length cd + length reqs)%nat.
Proof.
  induction reqs as [| r rest IH]; intros cd; [simpl; lia |].
  rewrite layers_ensure_fold. simpl. rewrite <- layers_ensure_fold.
  pose proof (ensure_step_length sz dn cd r). pose proof (IH (ensure_step sz dn cd r)). lia.
Qed.

(** With every request already satisfied, [BM_data_layers_ensure]
    changes nothing. *)
Lemma layers_ensure_present sz dn reqs : forall cd,
  (forall r, In r reqs -> existsb (req_pred r) cd = true) ->
  BM_data_layers_ensure sz dn cd reqs = cd.
Proof.
  induction reqs as [| r rest IH]; intros cd Hall; [reflexivity |].
  rewrite layers_ensure_fold. simpl.
  assert (Hs : ensure_step sz dn cd r = cd).
  { unfold ensure_step.
    assert (Hr : (0 <= req_index cd r)%Z)
      by (apply req_index_nonneg, Hall; left; reflexivity).
    apply Z.ltb_ge in Hr. rewrite Hr. reflexivity. }
  rewrite Hs, <- layers_ensure_fold. apply IH. intros r' Hr'. apply Hall; right; exact Hr'.
Qed.

(** The three vertex layers [SCULPT_dyntopo_node_layers_add] ensures are
    all there. *)
Definition node_layers_present (dv : nat) (cd : list CustomDataLayer) : bool :=
  forallb (fun r => (0 <=? req_index cd r)%Z) (node_vlayers dv).

Lemma node_layers_present_iff dv cd :
  node_layers_present dv cd = true <->
  (forall r, In r (node_vlayers dv) -> existsb (req_pred r) cd = true).
Proof.
  unfold node_layers_present. rewrite forallb_forall. split; intros H r Hr.
  - apply req_index_nonneg. apply Z.leb_le. apply H; exact Hr.
  - apply Z.leb_le. apply req_index_nonneg. apply H; exact Hr.
Qed.

Lemma node_layers_present_mono dv cd cd' :
  (forall r, existsb (req_pred r) cd = true -> existsb (req_pred r) cd' = true) ->
  node_layers_present dv cd = true -> node_layers_present dv cd' = true.
Proof.
  intros Hm H. apply node_layers_present_iff. intros r Hr.
  apply Hm. apply (proj1 (node_layers_present_iff dv cd) H r Hr).
Qed.

Lemma node_layers_add_mono p sz dn dv cd :
  tn_only p -> existsb p cd = true -> existsb p (SCULPT_dyntopo_node_layers_add sz dn dv cd) = true.
Proof.
  intros Hp He. unfold SCULPT_dyntopo_node_layers_add.
  rewrite existsb_set_flag_tn by exact Hp. apply layers_ensure_mono; assumption.
Qed.

Lemma node_layers_add_present sz dn dv cd :
  node_layers_present dv (SCULPT_dyntopo_node_layers_add sz dn dv cd) = true.
Proof.
  apply node_layers_present_iff. intros r Hr. unfold SCULPT_dyntopo_node_layers_add.
  rewrite existsb_set_flag_tn by apply tn_only_req. apply layers_ensure_sat; exact Hr.
Qed.

Lemma node_layers_add_length sz dn dv cd :
  (length cd <= length (SCULPT_dyntopo_node_layers_add sz dn dv cd) <= length cd + 3)%nat.
Proof.
  unfold SCULPT_dyntopo_node_layers_add. rewrite length_set_flag.
  apply (layers_ensure_length sz dn (node_vlayers dv) cd).
Qed.

(** With the node layers already there, [SCULPT_dyntopo_node_layers_add]
    adds no layer. *)
Lemma node_layers_add_present_length sz dn dv cd :
  node_layers_present dv cd = true ->
  length (SCULPT_dyntopo_node_layers_add sz dn dv cd) = length cd.
Proof.
  intros H. unfold SCULPT_dyntopo_node_layers_add. rewrite length_set_flag.
  rewrite layers_ensure_present; [reflexivity |].
  apply node_layers_present_iff; exact H.
Qed.

Lemma add_named_present sz dv cd t n :
  node_layers_present dv cd = true -> node_layers_present dv (BM_data_layer_add_named sz cd t n) = true.
Proof.
  apply node_layers_present_mono. intros r Hr.
  rewrite existsb_add_named_tn, Hr by apply tn_only_req. apply orb_true_r.
Qed.

(** The named layer once [SCULPT_dyntopo_ensure_templayer] had to add
    it: the lookup's index in the layers after the node layers were
    ensured. *)
Lemma ensure_templayer_absent sz dn dv cd type name :
  (CustomData_get_named_layer_index cd type name < 0)%Z ->
  let U := SCULPT_dyntopo_node_layers_update_offsets sz dn dv
             (BM_data_layer_add_named sz cd type name) in
  SCULPT_dyntopo_ensure_templayer sz dn dv cd type name
  = set_layer_flag U (Z.to_nat (CustomData_get_named_layer_index U type name)) CD_FLAG_TEMPORARY /\
  existsb (named type name) U = true.
Proof.
  intros Hlt U. split.
  - unfold SCULPT_dyntopo_ensure_templayer. apply Z.ltb_lt in Hlt. rewrite Hlt. reflexivity.
  - unfold U, SCULPT_dyntopo_node_layers_update_offsets.
    apply node_layers_add_mono; [apply tn_only_named |].
    rewrite existsb_add_named_tn by apply tn_only_named.
    unfold named; simpl. rewrite Nat.eqb_refl, String.eqb_refl. reflexivity.
Qed.

(** After [SCULPT_dyntopo_ensure_templayer] the named layer exists. *)
Lemma ensure_templayer_found sz dn dv cd type name :
  (0 <= CustomData_get_named_layer_index
          (SCULPT_dyntopo_ensure_templayer sz dn dv cd type name) type name)%Z.
Proof.
  destruct (CustomData_get_named_layer_index cd type name <? 0)%Z eqn:Hlt.
  - apply Z.ltb_lt in Hlt.
    destruct (ensure_templayer_absent sz dn dv cd type name Hlt) as [-> He].
    unfold CustomData_get_named_layer_index at 1. fold (named type name).
    rewrite find_layer_set_flag_tn by apply tn_only_named.
    apply find_nonneg_iff. exact He.
  - unfold SCULPT_dyntopo_ensure_templayer. rewrite Hlt.
    apply Z.ltb_ge in Hlt; exact Hlt.
Qed.

Lemma ensure_templayer_length sz dn dv cd type name :
  node_layers_present dv cd = true ->
  length (SCULPT_dyntopo_ensure_templayer sz dn dv cd type name)
  = (length cd + (if (CustomData_get_named_layer_index cd type name <? 0)%Z then 1 else 0))%nat.
Proof.
  intros Hp. destruct (CustomData_get_named_layer_index cd type name <? 0)%Z eqn:Hlt.
  - apply Z.ltb_lt in Hlt.
    destruct (ensure_templayer_absent sz dn dv cd type name Hlt) as [-> _].
    rewrite length_set_flag. unfold SCULPT_dyntopo_node_layers_update_offsets.
    rewrite node_layers_add_present_length by (apply add_named_present; exact Hp).
    rewrite add_named_length. lia.
  - unfold SCULPT_dyntopo_ensure_templayer. rewrite Hlt. lia.
Qed.

(** C5: in a session whose vertex data holds the node layers (the paint
    mask, the [CD_DYNTOPO_VERT] layer and the [_dyntopo_node_id] layer,
    which [SCULPT_dynamic_topology_enable_ex] adds through
    [SCULPT_dyntopo_node_layers_add] when it creates [ss->bm]), the first
    [SCULPT_dyntopo_ensure_templayer] adds exactly one layer when the named
    layer is absent (none when present), the second call adds none and
    changes nothing, and [SCULPT_dyntopo_get_templayer] returns the same,
    valid (non-negative) offset after each call: the offset of the named
    layer. *)
Theorem ensure_templayer_twice sz dn dv cd type name :
  node_layers_present dv cd = true ->
  let cd1 := SCULPT_dyntopo_ensure_templayer sz dn dv cd type name in
  let cd2 := SCULPT_dyntopo_ensure_templayer sz dn dv cd1 type name in
  length cd1
    = (length cd + (if (CustomData_get_named_layer_index cd type name <? 0)%Z then 1 else 0))%nat /\
  length cd2 = length cd1 /\
  cd2 = cd1 /\
  SCULPT_dyntopo_get_templayer cd2 type name = SCULPT_dyntopo_get_templayer cd1 type name /\
  (exists x, In x cd1 /\ named type name x = true /\
     SCULPT_dyntopo_get_templayer cd1 type name = Z.of_nat (cl_offset x)) /\
  (0 <= SCULPT_dyntopo_get_templayer cd1 type name)%Z.
Proof.
  intros Hp. simpl.
  set (cd1 := SCULPT_dyntopo_ensure_templayer sz dn dv cd type name).
  assert (Hf : (0 <= CustomData_get_named_layer_index cd1 type name)%Z)
    by apply ensure_templayer_found.
  assert (Heq : SCULPT_dyntopo_ensure_templayer sz dn dv cd1 type name = cd1).
  { unfold SCULPT_dyntopo_ensure_templayer at 1.
    assert (Hl : (CustomData_get_named_layer_index cd1 type name <? 0)%Z = false)
      by (apply Z.ltb_ge; exact Hf).
    rewrite Hl; reflexivity. }
  rewrite Heq.
  destruct (get_templayer_found cd1 type name Hf) as (i & x & _ & Hn & Hx & Hoff).
  split; [apply ensure_templayer_length; exact Hp |].
  split; [reflexivity |].
  split; [reflexivity |].
  split; [reflexivity |].
  split.
  - exists x. split; [eapply nth_error_In; exact Hn |]. split; [exact Hx | exact Hoff].
  - rewrite Hoff; lia.
Qed.

(** The three node layers, a paint-mask layer first; [CD_DYNTOPO_VERT]
    taken as 51. *)
Definition node_layers_cd : list CustomDataLayer :=
  [mkLayer Toggle.CD_PAINT_MASK "" 0 0; mkLayer CD_PROP_INT32 dyntopop_node_idx_layer_id 32 4;
   mkLayer 51 "" 32 8].

Lemma ensure_templayer_twice_witness :
  node_layers_present 51 node_layers_cd = true /\
  length (SCULPT_dyntopo_ensure_templayer (fun _ => 4%nat) (fun _ => ""%string) 51
            node_layers_cd 5 "tmp"%string)
  = S (length node_layers_cd).
Proof.
  assert (H : node_layers_present 51 node_layers_cd = true) by (vm_compute; reflexivity).
  split; [exact H |].
  rewrite (proj1 (ensure_templayer_twice (fun _ => 4%nat) (fun _ => ""%string) 51
                    node_layers_cd 5 "tmp"%string H)).
  vm_compute. reflexivity.
Defined.

End TempLayerFacts.


(* ------------------------------------------------------------------ *)
(** ** Mixed Voronoi areas and cotangents *)

Module GeomFacts.
Import Geom.

Lemma dot_self_nonneg (a : vec3) : 0 <= dot_v3v3 a a.
Proof. destruct a as [[a1 a2] a3]; simpl; nra. Qed.

Lemma dot_comm (a b : vec3) : dot_v3v3 a b = dot_v3v3 b a.
Proof. destruct a as [[a1 a2] a3], b as [[b1 b2] b3]; simpl; ring. Qed.

(** Lagrange's identity: [|a x b|^2 = |a|^2 |b|^2 - (a.b)^2]. *)
Lemma cross_lagrange (a b : vec3) :
  dot_v3v3 (cross_v3_v3v3 a b) (cross_v3_v3v3 a b)
  = dot_v3v3 a a * dot_v3v3 b b - dot_v3v3 a b * dot_v3v3 a b.
Proof. destruct a as [[a1 a2] a3], b as [[b1 b2] b3]; simpl; ring. Qed.

Lemma corner_angle_sym (a b c : vec3) : corner_angle a b c = corner_angle a c b.
Proof.
  unfold corner_angle. rewrite (dot_comm (sub_v3_v3v3 b a)).
  rewrite (Rmult_comm (len_v3 (sub_v3_v3v3 b a))). reflexivity.
Qed.

(** The cotangent weight at a corner is the cotangent of that corner's
    angle (for a degenerate corner both are 0). *)
Lemma cotangent_is_cot (v1 v2 v3 : vec3) :
  cotangent_tri_weight_v3 v1 v2 v3 = cot (corner_angle v1 v2 v3).
Proof.
  unfold cotangent_tri_weight_v3, corner_angle, cot, len_v3.
  set (a := sub_v3_v3v3 v2 v1). set (b := sub_v3_v3v3 v3 v1).
  pose proof (cross_lagrange a b) as HL.
  pose proof (dot_self_nonneg a) as HA.
  pose proof (dot_self_nonneg b) as HB.
  pose proof (dot_self_nonneg (cross_v3_v3v3 a b)) as HX.
  set (A := dot_v3v3 a a) in *. set (B := dot_v3v3 b b) in *.
  set (D := dot_v3v3 a b) in *.
  set (X := dot_v3v3 (cross_v3_v3v3 a b) (cross_v3_v3v3 a b)) in *.
  rewrite <- (sqrt_mult A B HA HB).
  assert (HAB : 0 <= A * B) by nra.
  destruct (Rlt_dec 0 (sqrt X)) as [Hs | Hs].
  - assert (HX0 : 0 < X).
    { destruct (Rle_lt_dec X 0) as [Hle | Hlt]; [|exact Hlt].
      rewrite (sqrt_neg_0 X Hle) in Hs. lra. }
    assert (HABp : 0 < A * B) by nra.
    assert (HA0 : A <> 0) by (intro E; rewrite E in HABp; lra).
    assert (HB0 : B <> 0) by (intro E; rewrite E in HABp; lra).
    pose proof (sqrt_lt_R0 _ HABp) as HsAB.
    pose proof (sqrt_sqrt _ (Rlt_le _ _ HABp)) as HsAB2.
    set (s := sqrt (A * B)) in *.
    assert (Hc2 : D / s * (D / s) = D * D / (A * B)).
    { rewrite <- HsAB2. field. lra. }
    assert (Hc : -1 <= D / s <= 1).
    { assert (D / s * (D / s) < 1).
      { rewrite Hc2. apply (Rmult_lt_reg_r (A * B)); [exact HABp|].
        unfold Rdiv. rewrite Rmult_assoc, Rinv_l by lra.
        lra. }
      split; nra. }
    rewrite (cos_acos _ Hc), (sin_acos _ Hc).
    unfold Rsqr.
    replace (1 - D / s * (D / s)) with (X / (A * B))
      by (rewrite Hc2, HL; field; repeat split; assumption).
    rewrite (sqrt_div X (A * B)) by lra. fold s.
    field. lra.
  - assert (HX0 : X = 0).
    { apply sqrt_eq_0; [exact HX|]. pose proof (sqrt_pos X). lra. }
    destruct (Req_dec (A * B) 0) as [Hz | Hz].
    + rewrite Hz, sqrt_0, Rdiv_0_r, acos_0, cos_PI2. unfold Rdiv. ring.
    + assert (HABp : 0 < A * B) by lra.
      pose proof (sqrt_lt_R0 _ HABp) as HsAB.
      pose proof (sqrt_sqrt _ (Rlt_le _ _ HABp)) as HsAB2.
      set (s := sqrt (A * B)) in *.
      assert (Hc2 : D / s * (D / s) = 1).
      { transitivity (D * D / (s * s)); [field; lra|].
        rewrite HsAB2. replace (D * D) with (A * B) by lra. unfold Rdiv; apply Rinv_r; lra. }
      assert (Hc : -1 <= D / s <= 1) by (split; nra).
      rewrite (sin_acos _ Hc). unfold Rsqr. rewrite Hc2.
      replace (1 - 1) with 0 by ring. rewrite sqrt_0, Rdiv_0_r. reflexivity.
Qed.

(** Claim C4: for every triangle [(p, q, r)], [tri_voronoi_area] is half
    the triangle's area when the angle at [p] is obtuse, a quarter of it
    when the angle at [q] or at [r] is obtuse, and otherwise
    [(1/8) (|p - r|^2 cot(angle at q) + |p - q|^2 cot(angle at r))]. *)
Theorem tri_voronoi_area_cases (p q r : vec3) :
  let angle_p := corner_angle p q r in
  let angle_q := corner_angle q r p in
  let angle_r := corner_angle r p q in
  let pr := sub_v3_v3v3 p r in
  let pq := sub_v3_v3v3 p q in
  tri_voronoi_area p q r =
  if Rgtb angle_p (PI / 2) then area_tri_v3 p q r / 2
  else if Rgtb angle_q (PI / 2) || Rgtb angle_r (PI / 2) then area_tri_v3 p q r / 4
  else (1 / 8) * (dot_v3v3 pr pr * cot angle_q + dot_v3v3 pq pq * cot angle_r).
Proof.
  intros. unfold tri_voronoi_area, angle_tri_v3.
  replace (PI * 0.5) with (PI / 2) by lra.
  rewrite !cotangent_is_cot, (corner_angle_sym q p r), (corner_angle_sym r q p).
  reflexivity.
Qed.

End GeomFacts.

(* ------------------------------------------------------------------ *)
(** ** Cotangent weights: normalisation and a flat fan *)

Module CotanFacts.
Import Geom Cotan GeomFacts.

Lemma fold_left_area (ws : list wedge) (a : R) :
  fold_left (fun acc w => acc + wd_area w) ws a = a + sum_list (map wd_area ws).
Proof.
  revert a. induction ws as [|w ws IH]; intros a; simpl.
  - ring.
  - rewrite IH. ring.
Qed.

Lemma sum_list_scale (ws : list wedge) (m : R) :
  sum_list (map (fun w => wd_w w * m) ws) = sum_list (map wd_w ws) * m.
Proof. induction ws as [|w ws IH]; simpl; [ring | rewrite IH; ring]. Qed.

Definition wedge_ok (w : wedge) : Prop := wd_w w = wd_cot1 w + wd_cot2 w.

Lemma cot_wedge_ok v v1 v2 v3 : wedge_ok (cot_wedge v v1 v2 v3).
Proof. reflexivity. Qed.

Lemma combine_cots (ws : list wedge) :
  combine (map wd_cot1 ws) (map wd_cot2 ws)
  = map (fun w => (wd_cot1 w, wd_cot2 w)) ws.
Proof. induction ws as [|w ws IH]; simpl; [reflexivity | now rewrite IH]. Qed.

Lemma finish_props (ws : list wedge) :
  Forall wedge_ok ws ->
  let out := finish_cotangents ws in
  r_totarea out = sum_list (r_area out) /\
  r_ws out = map (fun c => (fst c + snd c) * (1 / (r_totarea out * 2)))
                 (combine (r_cot1 out) (r_cot2 out)) /\
  sum_list (r_ws out)
    = sum_list (map (fun c => fst c + snd c) (combine (r_cot1 out) (r_cot2 out)))
      * (1 / (r_totarea out * 2)).
Proof.
  intros Hok out. unfold out, finish_cotangents; simpl.
  rewrite fold_left_area, Rplus_0_l, combine_cots, !map_map. simpl.
  split; [reflexivity|].
  set (m := 1 / (sum_list (map wd_area ws) * 2)).
  assert (Hws : map (fun w => wd_w w * m) ws
                = map (fun w => (wd_cot1 w + wd_cot2 w) * m) ws).
  { apply map_ext_Forall. eapply Forall_impl; [|exact Hok].
    intros w Hw. unfold wedge_ok in Hw. now rewrite Hw. }
  split; [exact Hws|].
  rewrite sum_list_scale.
  f_equal. apply f_equal. apply map_ext_Forall.
  eapply Forall_impl; [|exact Hok]. intros w Hw. exact Hw.
Qed.

Lemma faces_wedges_ok (vemap : list nat) (f : nat -> wedge) :
  (forall i, exists v v1 v2 v3, f i = cot_wedge v v1 v2 v3) ->
  Forall wedge_ok (map f (seq 0 (length vemap))).
Proof.
  intros Hf. apply Forall_forall. intros w Hin.
  apply in_map_iff in Hin as [i [<- _]].
  destruct (Hf i) as (v & v1 & v2 & v3 & ->). apply cot_wedge_ok.
Qed.

Lemma disk_walk_ok mvert medge vi efirst eprev es :
  Forall wedge_ok (disk_walk mvert medge vi efirst eprev es).
Proof.
  revert eprev. induction es as [|e rest IH]; intros eprev; simpl.
  - constructor.
  - constructor; [apply cot_wedge_ok | apply IH].
Qed.

(** What the two functions compute: [totarea] is the sum of the wedge
    areas, and every weight is its [cot1 + cot2] times
    [1 / (totarea * 2)]; so the weights sum to
    [sum (cot1 + cot2) / (2 totarea)]. *)
Definition weights_over_twice_area (out : cot_out) : Prop :=
  r_totarea out = sum_list (r_area out) /\
  r_ws out = map (fun c => (fst c + snd c) * (1 / (r_totarea out * 2)))
                 (combine (r_cot1 out) (r_cot2 out)) /\
  sum_list (r_ws out)
    = sum_list (map (fun c => fst c + snd c) (combine (r_cot1 out) (r_cot2 out)))
      * (1 / (r_totarea out * 2)).

(** Claim C1 (amended): in [SCULPT_faces_get_cotangents] and in
    [SCULPT_dyntopo_get_cotangents] (for a vertex with at least one edge)
    [totarea] is the sum of the returned wedge areas and each returned
    weight is [(cot1 + cot2) / (2 totarea)], so the weights sum to
    [sum (cot1 + cot2) / (2 totarea)], not to 1 in general. *)
Theorem cotangent_weights_over_twice_area mvert medge vemap disk vi :
  weights_over_twice_area (faces_get_cotangents mvert medge vemap vi) /\
  match dyntopo_get_cotangents mvert medge disk vi with
  | Some out => weights_over_twice_area out
  | None => disk = []
  end.
Proof.
  split.
  - unfold faces_get_cotangents. apply finish_props.
    apply faces_wedges_ok. intros i. do 4 eexists. reflexivity.
  - unfold dyntopo_get_cotangents. destruct disk as [|e0 rest]; [reflexivity|].
    apply finish_props, disk_walk_ok.
Qed.

Lemma cot_one (v1 v2 v3 : vec3) (A B : R) :
  dot_v3v3 (sub_v3_v3v3 v2 v1) (sub_v3_v3v3 v3 v1) = 1 ->
  dot_v3v3 (sub_v3_v3v3 v2 v1) (sub_v3_v3v3 v2 v1) = A ->
  dot_v3v3 (sub_v3_v3v3 v3 v1) (sub_v3_v3v3 v3 v1) = B ->
  A * B = 2 ->
  cotangent_tri_weight_v3 v1 v2 v3 = 1.
Proof.
  intros Hab Haa Hbb HAB.
  unfold cotangent_tri_weight_v3, len_v3. cbv zeta.
  rewrite cross_lagrange, Hab, Haa, Hbb, HAB.
  replace (2 - 1 * 1) with 1 by ring. rewrite sqrt_1.
  destruct (Rlt_dec 0 1); [field | lra].
Qed.

Lemma corner_right (a b c : vec3) :
  dot_v3v3 (sub_v3_v3v3 b a) (sub_v3_v3v3 c a) = 0 ->
  corner_angle a b c = PI / 2.
Proof.
  intros H. unfold corner_angle. cbv zeta.
  rewrite H. unfold Rdiv. rewrite Rmult_0_l. apply acos_0.
Qed.

Lemma acos_le_PI2 (x : R) : 0 <= x -> acos x <= PI / 2.
Proof.
  intros Hx. pose proof PI_RGT_0. unfold acos.
  destruct (Rle_dec x (-1)); [lra|].
  destruct (Rle_dec 1 x); [lra|].
  assert (Hs : 0 < sqrt (1 - x²)).
  { apply sqrt_lt_R0. unfold Rsqr. nra. }
  assert (Hy : 0 <= x / sqrt (1 - x²)).
  { unfold Rdiv. apply Rmult_le_pos; [exact Hx|].
    left. apply Rinv_0_lt_compat, Hs. }
  destruct (Req_dec (x / sqrt (1 - x²)) 0) as [E | E].
  - rewrite E, atan_0. lra.
  - pose proof (atan_increasing 0 (x / sqrt (1 - x²)) ltac:(lra)) as Ha.
    rewrite atan_0 in Ha. lra.
Qed.

Lemma corner_not_obtuse (a b c : vec3) :
  0 <= dot_v3v3 (sub_v3_v3v3 b a) (sub_v3_v3v3 c a) ->
  Rgtb (corner_angle a b c) (PI * 0.5) = false.
Proof.
  intros H. unfold Rgtb, corner_angle, len_v3. cbv zeta.
  set (d := dot_v3v3 (sub_v3_v3v3 b a) (sub_v3_v3v3 c a)) in *.
  set (m := sqrt _ * sqrt _).
  assert (Hm : 0 <= m) by (apply Rmult_le_pos; apply sqrt_pos).
  assert (Hq : 0 <= d / m).
  { destruct (Req_dec m 0) as [E | E].
    - rewrite E, Rdiv_0_r. lra.
    - unfold Rdiv. apply Rmult_le_pos; [exact H|].
      left. apply Rinv_0_lt_compat. lra. }
  pose proof (acos_le_PI2 _ Hq).
  destruct (Rlt_dec _ _); [lra | reflexivity].
Qed.

Ltac vec_arith :=
  repeat match goal with v : vec3 |- _ => destruct v as [[? ?] ?] end;
  unfold sub_v3_v3v3, dot_v3v3, origin in *; cbv beta iota in *; nra.

(** A wedge of a flat fan whose spokes [v1], [v2], [v3] are unit vectors
    at right angles: both cotangents are 1 and the Voronoi area is 1/4. *)
Lemma wedge_square (v1 v2 v3 : vec3) :
  dot_v3v3 v1 v1 = 1 -> dot_v3v3 v2 v2 = 1 -> dot_v3v3 v3 v3 = 1 ->
  dot_v3v3 v1 v2 = 0 -> dot_v3v3 v2 v3 = 0 ->
  cot_wedge origin v1 v2 v3 = mkWedge 2 1 1 (1 / 4).
Proof.
  intros H11 H22 H33 H12 H23.
  assert (C1 : cotangent_tri_weight_v3 v1 origin v2 = 1)
    by (apply (cot_one _ _ _ 1 2); [vec_arith | vec_arith | vec_arith | ring]).
  assert (C2 : cotangent_tri_weight_v3 v3 v2 origin = 1)
    by (apply (cot_one _ _ _ 2 1); [vec_arith | vec_arith | vec_arith | ring]).
  assert (C3 : cotangent_tri_weight_v3 v2 v1 origin = 1)
    by (apply (cot_one _ _ _ 2 1); [vec_arith | vec_arith | vec_arith | ring]).
  unfold cot_wedge, tri_voronoi_area, angle_tri_v3. cbv zeta.
  rewrite C1, C2, C3.
  rewrite (corner_right origin v1 v2) by vec_arith.
  rewrite (corner_not_obtuse v1 v2 origin) by vec_arith.
  rewrite (corner_not_obtuse v2 origin v1) by vec_arith.
  assert (Hp : Rgtb (PI / 2) (PI * 0.5) = false).
  { unfold Rgtb. destruct (Rlt_dec _ _); [lra | reflexivity]. }
  rewrite Hp. simpl orb. cbv iota.
  assert (D1 : dot_v3v3 (sub_v3_v3v3 origin v2) (sub_v3_v3v3 origin v2) = 1) by vec_arith.
  assert (D2 : dot_v3v3 (sub_v3_v3v3 origin v1) (sub_v3_v3v3 origin v1) = 1) by vec_arith.
  rewrite D1, D2. f_equal; field.
Qed.

(** A flat fan: hub 0 at the origin, spokes to the unit vectors
    [(1,0,0)], [(0,1,0)], [(-1,0,0)], [(0,-1,0)] in disk-cycle order
    (valence 4, no degenerate triangle). *)
Definition fan_mvert : list vec3 :=
  [(0, 0, 0); (1, 0, 0); (0, 1, 0); (-1, 0, 0); (0, -1, 0)].

Definition fan_medge : list (nat * nat) := [(0, 1); (0, 2); (0, 3); (0, 4)]%nat.

Definition fan_disk : list nat := [0; 1; 2; 3]%nat.

Ltac fan_wedges :=
  repeat (rewrite wedge_square
           by (unfold dot_v3v3; cbv beta iota; lra));
  unfold finish_cotangents, sum_list; simpl; field.

(** Claim C1 (counterexample): on the flat fan above each wedge has
    [cot1 = cot2 = 1] and Voronoi area 1/4, so [totarea = 1] and every
    weight is [2 / 2 = 1]: the four weights sum to 4, not 1, in both
    [SCULPT_faces_get_cotangents] and [SCULPT_dyntopo_get_cotangents]. *)
Lemma cotangent_weights_sum_to_four :
  sum_list (r_ws (faces_get_cotangents fan_mvert fan_medge fan_disk 0)) = 4 /\
  option_map (fun out => sum_list (r_ws out))
    (dyntopo_get_cotangents fan_mvert fan_medge fan_disk 0) = Some 4.
Proof.
  split.
  - unfold faces_get_cotangents.
    cbn -[cot_wedge finish_cotangents IZR sum_list].
    fan_wedges.
  - unfold dyntopo_get_cotangents.
    cbn -[cot_wedge finish_cotangents IZR sum_list].
    f_equal. fan_wedges.
Qed.

End CotanFacts.

(* ------------------------------------------------------------------ *)
(** ** UV solver: hash tables, pools and area totals *)

Module UVSolverTables.
Import Geom UVSolver UVSolverFacts.

Definition same_but_verts (s s' : UVSolver) : Prop :=
  tris s' = tris s /\ constraints s' = constraints s /\ fhash s' = fhash s /\
  totarea3d s' = totarea3d s /\ totarea2d s' = totarea2d s /\ strength s' = strength s.

Lemma same_but_verts_refl s : same_but_verts s s.
Proof. repeat split. Qed.

Lemma same_but_verts_trans s1 s2 s3 :
  same_but_verts s1 s2 -> same_but_verts s2 s3 -> same_but_verts s1 s3.
Proof.
  intros (A1 & B1 & C1 & D1 & E1 & F1) (A2 & B2 & C2 & D2 & E2 & F2).
  repeat split; congruence.
Qed.

Lemma sv_upd_same s i f : same_but_verts s (sv_upd s i f).
Proof. repeat split. Qed.

Lemma length_list_upd {A} (l : list A) i f : length (list_upd l i f) = length l.
Proof.
  revert i; induction l as [| x r IH]; intros [| i]; simpl; try reflexivity.
  rewrite IH; reflexivity.
Qed.

Lemma get_vert_same s uvs l : same_but_verts s (fst (uvsolver_get_vert s uvs l)).
Proof.
  unfold uvsolver_get_vert.
  destruct (assoc Z.eqb _ (vhash s)) as [i |]; simpl;
    destruct (Nat.ltb _ MAXUVLOOPS); repeat split.
Qed.

Lemma collect_loops_same ls : forall s uvs i vs nocon,
  same_but_verts s (fst (fst (collect_loops s uvs ls i vs nocon))).
Proof.
  induction ls as [| l rest IH]; intros s uvs i vs nocon; simpl;
    [apply same_but_verts_refl |].
  destruct (uvsolver_get_vert s uvs l) as [s1 sv] eqn:Eg.
  assert (Hs1 : same_but_verts s s1).
  { change s1 with (fst (s1, sv)). rewrite <- Eg. apply get_vert_same. }
  destruct (Nat.ltb 3 i); simpl; [exact Hs1 |].
  eapply same_but_verts_trans; [exact Hs1 | apply IH].
Qed.

Lemma link_edge_same s v1 v2 : same_but_verts s (link_edge s v1 v2).
Proof.
  unfold link_edge. destruct (negb _); repeat split.
Qed.

Lemma link_neighbors_same s vs : same_but_verts s (link_neighbors s vs).
Proof.
  unfold link_neighbors. simpl.
  eapply same_but_verts_trans; [| apply link_edge_same].
  eapply same_but_verts_trans; [| apply link_edge_same].
  apply link_edge_same.
Qed.

(** [uvsolver_get_vert] keys the vertex table by the loop's quantised UV:
    afterwards the key maps to the returned vertex; an existing entry is
    reused without growing the pool, a missing one gets a new vertex at
    the end of the pool. *)
Theorem uvsolver_get_vert_lookup s uvs l :
  let key := uvsolver_calc_loop_key (uvs (l_id l)) in
  let r := uvsolver_get_vert s uvs l in
  assoc Z.eqb key (vhash (fst r)) = Some (snd r) /\
  match assoc Z.eqb key (vhash s) with
  | Some j => snd r = j /\ length (verts (fst r)) = length (verts s)
  | None => snd r = length (verts s) /\ length (verts (fst r)) = S (length (verts s))
  end.
Proof.
  intros key r. unfold r, uvsolver_get_vert. fold key.
  destruct (assoc Z.eqb key (vhash s)) as [j |] eqn:Ha; simpl.
  - destruct (Nat.ltb _ MAXUVLOOPS); simpl;
      [rewrite length_list_upd |]; auto.
  - destruct (Nat.ltb _ MAXUVLOOPS); simpl; rewrite ?Z.eqb_refl;
      [rewrite length_list_upd |]; rewrite length_app; simpl; split; auto; lia.
Qed.

Lemma Forall_list_upd {A} (P : A -> Prop) (l : list A) i f d :
  Forall P l -> ((i < length l)%nat -> P (f (nth i l d))) -> Forall P (list_upd l i f).
Proof.
  revert i; induction l as [| x r IH]; intros i Hl Hf; simpl; [constructor |].
  inversion Hl as [| ? ? Hx Hr]; subst.
  destruct i as [| i]; simpl in *.
  - constructor; [apply Hf; lia | exact Hr].
  - constructor; [exact Hx | apply IH; [exact Hr | intros; apply Hf; lia]].
Qed.

(** [uvsolver_get_vert] never stores more than [MAXUVLOOPS] loops in a
    solver vertex: if every vertex holds at most 32 loops before the call,
    every vertex holds at most 32 after it. *)
Theorem uvsolver_get_vert_loop_cap s uvs l :
  Forall (fun sv => (length (sv_ls sv) <= MAXUVLOOPS)%nat) (verts s) ->
  Forall (fun sv => (length (sv_ls sv) <= MAXUVLOOPS)%nat)
         (verts (fst (uvsolver_get_vert s uvs l))).
Proof.
  intros H. unfold uvsolver_get_vert.
  set (s1 := match assoc Z.eqb _ (vhash s) with Some i => (s, i) | None => _ end).
  assert (H1 : Forall (fun sv => (length (sv_ls sv) <= MAXUVLOOPS)%nat) (verts (fst s1))).
  { unfold s1. destruct (assoc Z.eqb _ (vhash s)); simpl; [exact H |].
    apply Forall_app; split; [exact H |]. constructor; [simpl; unfold MAXUVLOOPS; lia |].
    constructor. }
  destruct s1 as [s2 i]. simpl in H1.
  destruct (Nat.ltb (length (sv_ls (sv_get s2 i))) MAXUVLOOPS) eqn:Hlt; simpl; [| exact H1].
  apply (Forall_list_upd _ _ _ _ sv_default); [exact H1 |].
  intros _. apply Nat.ltb_lt in Hlt. unfold sv_get in Hlt.
  unfold add_loop; simpl. rewrite length_app; simpl. lia.
Qed.

Lemma list_upd_last {A} (l : list A) x g :
  list_upd (l ++ [x]) (length l) g = l ++ [g x].
Proof. induction l as [| y r IH]; simpl; [reflexivity | now rewrite IH]. Qed.

Lemma add_constraints_tables s ti vs nocon :
  let s' := add_constraints s ti vs nocon in
  tris s' = tris s /\ fhash s' = fhash s /\ totarea3d s' = totarea3d s /\
  totarea2d s' = totarea2d s /\ strength s' = strength s /\ verts s' = verts s /\
  vhash s' = vhash s.
Proof. unfold add_constraints. destruct nocon; repeat split. Qed.

(** What [uvsolver_ensure_face] does to the tables for a face it has not
    seen: one triangle appended with non-negative areas, the face recorded
    under that triangle, and the area totals increased by its areas. *)
Lemma ensure_face_new s uvs f :
  assoc Nat.eqb (f_id f) (fhash s) = None ->
  exists tvs a2 a3,
    0 <= a2 /\ 0 <= a3 /\
    snd (uvsolver_ensure_face s uvs f) = length (tris s) /\
    tris (fst (uvsolver_ensure_face s uvs f)) = tris s ++ [mkTri tvs a2 a3] /\
    fhash (fst (uvsolver_ensure_face s uvs f)) = (f_id f, length (tris s)) :: fhash s /\
    totarea3d (fst (uvsolver_ensure_face s uvs f)) = totarea3d s + a3 /\
    totarea2d (fst (uvsolver_ensure_face s uvs f)) = totarea2d s + a2 /\
    strength (fst (uvsolver_ensure_face s uvs f)) = strength s.
Proof.
  intros Hf. unfold uvsolver_ensure_face. rewrite Hf.
  set (s0 := mkSolver _ _ _ _ _ _ _ _).
  destruct (collect_loops s0 uvs (f_loops f) 0 [] false) as [[s1 vs] nocon] eqn:Ec.
  assert (H1 : same_but_verts s0 s1).
  { change s1 with (fst (fst (s1, vs, nocon))). rewrite <- Ec. apply collect_loops_same. }
  set (v0 := vs_at vs 0). set (v1 := vs_at vs 1). set (v2 := vs_at vs 2).
  set (a3 := area_tri_v3 _ _ _). set (a2 := area_tri_v2_db _ _ _).
  set (s2 := if Rlt_dec a2 _ then _ else _).
  assert (H2 : same_but_verts s1 s2).
  { unfold s2. destruct (Rlt_dec _ _); repeat split. }
  pose proof (same_but_verts_trans _ _ _ H1 H2) as (T & _ & F & A3 & A2 & S).
  set (s3 := mkSolver (verts s2) _ _ _ _ _ _ _).
  pose proof (add_constraints_tables s3 (length (tris s)) [v0; v1; v2] nocon)
    as (T4 & F4 & A34 & A24 & S4 & _).
  pose proof (link_neighbors_same (add_constraints s3 (length (tris s)) [v0; v1; v2] nocon)
                [v0; v1; v2]) as (T5 & _ & F5 & A35 & A25 & S5).
  exists [v0; v1; v2], a2, a3. simpl fst. simpl snd.
  rewrite T5, F5, A35, A25, S5, T4, F4, A34, A24, S4.
  unfold s3; simpl. rewrite T, F, A3, A2, S. unfold s0; simpl.
  rewrite list_upd_last.
  repeat split; try reflexivity.
  - apply Rabs_pos.
  - unfold a3, area_tri_v3, len_v3. apply Rmult_le_pos; [apply sqrt_pos | lra].
Qed.

(** Setting up a face is idempotent: once [uvsolver_ensure_face] has run
    for a face, the face is in [fhash] under the returned triangle, and a
    second call returns that triangle and changes nothing. *)
Theorem uvsolver_ensure_face_twice s uvs f :
  let r := uvsolver_ensure_face s uvs f in
  assoc Nat.eqb (f_id f) (fhash (fst r)) = Some (snd r) /\
  uvsolver_ensure_face (fst r) uvs f = r.
Proof.
  intros r.
  assert (Hh : assoc Nat.eqb (f_id f) (fhash (fst r)) = Some (snd r)).
  { unfold r. destruct (assoc Nat.eqb (f_id f) (fhash s)) as [ti |] eqn:Hf.
    - unfold uvsolver_ensure_face. rewrite Hf. exact Hf.
    - destruct (ensure_face_new s uvs f Hf)
        as (tvs & a2 & a3 & _ & _ & Hti & _ & Hfh & _).
      rewrite Hfh, Hti. simpl. rewrite Nat.eqb_refl. reflexivity. }
  split; [exact Hh |].
  unfold uvsolver_ensure_face at 1. rewrite Hh. destruct r; reflexivity.
Qed.

(** The solver's area totals are the sums of its triangles' areas: if
    [totarea3d] and [totarea2d] are the sums over the triangle pool before
    [uvsolver_ensure_face], they are after it, and neither decreases. *)
Theorem uvsolver_ensure_face_area_totals s uvs f :
  totarea3d s = Cotan.sum_list (map tri_area3d (tris s)) ->
  totarea2d s = Cotan.sum_list (map tri_area2d (tris s)) ->
  let s' := fst (uvsolver_ensure_face s uvs f) in
  totarea3d s' = Cotan.sum_list (map tri_area3d (tris s')) /\
  totarea2d s' = Cotan.sum_list (map tri_area2d (tris s')) /\
  totarea3d s <= totarea3d s' /\ totarea2d s <= totarea2d s'.
Proof.
  intros H3 H2 s'. unfold s'.
  destruct (assoc Nat.eqb (f_id f) (fhash s)) as [ti |] eqn:Hf.
  - unfold uvsolver_ensure_face. rewrite Hf. simpl. repeat split; auto; lra.
  - destruct (ensure_face_new s uvs f Hf)
      as (tvs & a2 & a3 & Ha2 & Ha3 & _ & Ht & _ & Ht3 & Ht2 & _).
    rewrite Ht, Ht3, Ht2, !map_app. unfold Cotan.sum_list in *.
    rewrite !fold_right_app. simpl.
    assert (Hfr : forall l a, fold_right Rplus a l = fold_right Rplus 0 l + a).
    { induction l as [| x r IH]; intros a; simpl; [ring | rewrite IH; ring]. }
    rewrite (Hfr _ (a3 + 0)), (Hfr _ (a2 + 0)).
    repeat split; lra.
Qed.

Definition unit_triangle : BMFace :=
  mkFace 7 [mkLoop 0 0 (0, 0, 0) false; mkLoop 1 1 (1, 0, 0) false;
            mkLoop 2 2 (0, 1, 0) false].

Definition unit_uvs : uv_store :=
  fun l => if Nat.eqb l 1 then (1, 0) else if Nat.eqb l 2 then (0, 1) else (0, 0).

(** A solver whose only vertex, at UV key 0, already holds [MAXUVLOOPS]
    loops. *)
Definition full_solver : UVSolver :=
  mkSolver [mkSV (0, 0) (0, 0, 0) 0 false false (seq 0 32) []] [] [] [(0%Z, 0%nat)] [] 0 0 1.

Lemma full_solver_get_vert_full :
  length (sv_ls (sv_get (fst (uvsolver_get_vert full_solver unit_uvs
                                (mkLoop 40 0 (0, 0, 0) false))) 0)) = MAXUVLOOPS.
Proof.
  unfold uvsolver_get_vert, unit_uvs. cbn -[uvsolver_calc_loop_key].
  rewrite loop_key_origin. reflexivity.
Qed.

Lemma uvsolver_get_vert_loop_cap_witness :
  Forall (fun sv => (length (sv_ls sv) <= MAXUVLOOPS)%nat) (verts full_solver) /\
  Forall (fun sv => (length (sv_ls sv) <= MAXUVLOOPS)%nat)
         (verts (fst (uvsolver_get_vert full_solver unit_uvs (mkLoop 40 0 (0, 0, 0) false)))) /\
  length (sv_ls (sv_get (fst (uvsolver_get_vert full_solver unit_uvs
                                (mkLoop 40 0 (0, 0, 0) false))) 0)) = MAXUVLOOPS.
Proof.
  assert (H : Forall (fun sv => (length (sv_ls sv) <= MAXUVLOOPS)%nat) (verts full_solver)).
  { constructor; [simpl; unfold MAXUVLOOPS; lia | constructor]. }
  split; [exact H | split; [apply (uvsolver_get_vert_loop_cap _ _ _ H) |]].
  exact full_solver_get_vert_full.
Defined.

Lemma uvsolver_ensure_face_area_totals_witness :
  totarea3d uvsolver_new = Cotan.sum_list (map tri_area3d (tris uvsolver_new)) /\
  totarea2d uvsolver_new = Cotan.sum_list (map tri_area2d (tris uvsolver_new)) /\
  (let s' := fst (uvsolver_ensure_face uvsolver_new unit_uvs unit_triangle) in
   totarea3d s' = Cotan.sum_list (map tri_area3d (tris s')) /\
   totarea2d s' = Cotan.sum_list (map tri_area2d (tris s')) /\
   totarea3d uvsolver_new <= totarea3d s' /\ totarea2d uvsolver_new <= totarea2d s').
Proof.
  assert (H3 : totarea3d uvsolver_new = Cotan.sum_list (map tri_area3d (tris uvsolver_new)))
    by reflexivity.
  assert (H2 : totarea2d uvsolver_new = Cotan.sum_list (map tri_area2d (tris uvsolver_new)))
    by reflexivity.
  split; [exact H3 | split; [exact H2 |]].
  apply (uvsolver_ensure_face_area_totals _ _ _ H3 H2).
Defined.

End UVSolverTables.

(* ------------------------------------------------------------------ *)
(** ** UV solver: what a solver step changes *)

Module UVSolverStep.
Import Geom UVSolver UVSolverFacts UVSolverTables.

(** Two solver vertices that differ at most in their UV. *)
Definition same_but_uv (sv sv' : UVSmoothVert) : Prop :=
  sv_co sv' = sv_co sv /\ sv_v sv' = sv_v sv /\ sv_pinned sv' = sv_pinned sv /\
  sv_boundary sv' = sv_boundary sv /\ sv_ls sv' = sv_ls sv /\
  sv_neighbors sv' = sv_neighbors sv.

Lemma Forall2_same_refl l : Forall2 same_but_uv l l.
Proof. induction l; constructor; [repeat split | assumption]. Qed.

Lemma Forall2_same_trans l1 l2 l3 :
  Forall2 same_but_uv l1 l2 -> Forall2 same_but_uv l2 l3 -> Forall2 same_but_uv l1 l3.
Proof.
  intros H12; revert l3; induction H12 as [| x y r1 r2 Hxy _ IH]; intros l3 H23;
    inversion H23 as [| ? z ? r3 Hyz Hr]; subst; constructor.
  - destruct Hxy as (A & B & C & D & E & F), Hyz as (A' & B' & C' & D' & E' & F').
    repeat split; congruence.
  - apply IH; exact Hr.
Qed.

Lemma set_uv_same sv uv : same_but_uv sv (set_uv sv uv).
Proof. repeat split. Qed.

Lemma list_upd_same l i (f : UVSmoothVert -> UVSmoothVert) :
  (forall sv, same_but_uv sv (f sv)) -> Forall2 same_but_uv l (list_upd l i f).
Proof.
  intros Hf. revert i; induction l as [| x r IH]; intros [| i]; simpl;
    try constructor; auto; try apply Forall2_same_refl; repeat split.
Qed.

(** Two triangles that differ at most in their 2D area, and two
    constraints that differ at most in their gradient rows [gs]. *)
Definition same_but_area2d (t t' : UVSmoothTri) : Prop :=
  tri_vs t' = tri_vs t /\ tri_area3d t' = tri_area3d t.

Definition same_but_gs (c c' : UVSmoothConstraint) : Prop :=
  con_type c' = con_type c /\ con_k c' = con_k c /\ con_vs c' = con_vs c /\
  con_tri c' = con_tri c /\ con_params0 c' = con_params0 c.

(** What a solver step may write: the UVs, the triangles' [area2d] and
    the constraints' [gs]. *)
Definition uv_only (s s' : UVSolver) : Prop :=
  vhash s' = vhash s /\ fhash s' = fhash s /\ totarea3d s' = totarea3d s /\
  totarea2d s' = totarea2d s /\ strength s' = strength s /\
  Forall2 same_but_uv (verts s) (verts s') /\
  Forall2 same_but_area2d (tris s) (tris s') /\
  Forall2 same_but_gs (constraints s) (constraints s').

Lemma Forall2_refl_gen {A} (P : A -> A -> Prop) l :
  (forall x, P x x) -> Forall2 P l l.
Proof. intros HP. induction l; constructor; auto. Qed.

Lemma Forall2_trans_gen {A} (P : A -> A -> Prop) l1 l2 l3 :
  (forall x y z, P x y -> P y z -> P x z) ->
  Forall2 P l1 l2 -> Forall2 P l2 l3 -> Forall2 P l1 l3.
Proof.
  intros HT H12; revert l3; induction H12 as [| x y r1 r2 Hxy _ IH]; intros l3 H23;
    inversion H23 as [| ? z ? r3 Hyz Hr]; subst; constructor; eauto.
Qed.

Lemma list_upd_Forall2 {A} (P : A -> A -> Prop) l i f :
  (forall x, P x x) -> (forall x, P x (f x)) -> Forall2 P l (list_upd l i f).
Proof.
  intros Hr Hf. revert i; induction l as [| x r IH]; intros [| i]; simpl;
    constructor; auto; apply Forall2_refl_gen; exact Hr.
Qed.

Lemma same_but_area2d_refl t : same_but_area2d t t.
Proof. split; reflexivity. Qed.

Lemma same_but_gs_refl c : same_but_gs c c.
Proof. repeat split. Qed.

Lemma uv_only_refl s : uv_only s s.
Proof.
  repeat split; try reflexivity; apply Forall2_refl_gen;
    [intros; repeat split | apply same_but_area2d_refl | apply same_but_gs_refl].
Qed.

Lemma uv_only_trans s1 s2 s3 : uv_only s1 s2 -> uv_only s2 s3 -> uv_only s1 s3.
Proof.
  intros (A & B & C & D & E & F & G & H) (A' & B' & C' & D' & E' & F' & G' & H').
  repeat split; try congruence.
  - eapply Forall2_same_trans; eauto.
  - eapply Forall2_trans_gen; [| exact G | exact G'].
    intros x y z (P1 & P2) (Q1 & Q2). split; congruence.
  - eapply Forall2_trans_gen; [| exact H | exact H'].
    intros x y z (P1 & P2 & P3 & P4 & P5) (Q1 & Q2 & Q3 & Q4 & Q5). repeat split; congruence.
Qed.

Lemma sv_upd_uv_only s i g :
  uv_only s (sv_upd s i (fun sv => set_uv sv (g sv))).
Proof.
  pose proof (uv_only_refl s) as (A & B & C & D & E & _ & G & H).
  repeat split; try assumption.
  apply list_upd_same. intros sv. apply set_uv_same.
Qed.

Lemma set_tri_area2d_uv_only s ti a : uv_only s (set_tri_area2d s ti a).
Proof.
  pose proof (uv_only_refl s) as (A & B & C & D & E & F & _ & H).
  repeat split; try assumption.
  apply list_upd_Forall2; [apply same_but_area2d_refl | intros t; split; reflexivity].
Qed.

Lemma eval_st_uv_only s con : uv_only s (snd (uvsolver_eval_constraint_st s con)).
Proof.
  unfold uvsolver_eval_constraint_st.
  destruct (con_type con); [apply uv_only_refl |].
  destruct (Req_dec_T _ 0); [apply uv_only_refl |].
  destruct (Req_dec_T _ 0); [apply uv_only_refl | apply set_tri_area2d_uv_only].
Qed.

Lemma set_gs_uv_only s ci i j g : uv_only s (con_upd s ci (fun con => set_gs con i j g)).
Proof.
  pose proof (uv_only_refl s) as (A & B & C & D & E & F & G & _).
  repeat split; try assumption.
  apply list_upd_Forall2; [apply same_but_gs_refl | intros c; repeat split].
Qed.

Lemma grad_step_uv_only ci r1 acc ij :
  uv_only (fst (fst acc)) (fst (fst (grad_step ci r1 acc ij))).
Proof.
  destruct acc as [[s totg] totw], ij as [i j]. unfold grad_step.
  set (vi := vs_at (con_vs (con_get s ci)) i).
  pose proof (eval_st_uv_only (nudge s vi j) (con_get (nudge s vi j) ci)) as H2.
  destruct (uvsolver_eval_constraint_st (nudge s vi j) (con_get (nudge s vi j) ci))
    as [r2 s2]. simpl in H2 |- *.
  eapply uv_only_trans; [apply sv_upd_uv_only |].
  eapply uv_only_trans; [exact H2 |].
  eapply uv_only_trans; [apply set_gs_uv_only | apply sv_upd_uv_only].
Qed.

Lemma grad_fold_uv_only ci r1 ijs : forall acc,
  uv_only (fst (fst acc)) (fst (fst (fold_left (grad_step ci r1) ijs acc))).
Proof.
  induction ijs as [| ij ijs IH]; intros acc; simpl; [apply uv_only_refl |].
  eapply uv_only_trans; [apply grad_step_uv_only | apply IH].
Qed.

Lemma relax_vert_same st vs i : Forall2 same_but_uv vs (relax_vert st vs i).
Proof.
  unfold relax_vert. destruct (_ || _); [apply Forall2_same_refl |].
  destruct (fold_left _ _ _) as [[u v] tot].
  destruct (Rlt_dec tot 2); [apply Forall2_same_refl |].
  apply list_upd_same. intros sv. apply set_uv_same.
Qed.

Lemma relax_fold_same st idx : forall vs,
  Forall2 same_but_uv vs (fold_left (relax_vert st) idx vs).
Proof.
  induction idx as [| j idx IH]; intros vs; simpl; [apply Forall2_same_refl |].
  eapply Forall2_same_trans; [apply relax_vert_same | apply IH].
Qed.

Lemma simple_relax_uv_only s st uvs : uv_only s (fst (uvsolver_simple_relax s st uvs)).
Proof.
  pose proof (uv_only_refl s) as (A & B & C & D & E & _ & G & H).
  repeat split; try assumption. apply relax_fold_same.
Qed.

Lemma apply_correction_uv_only s ci r1 totg totw :
  uv_only s (apply_correction s ci r1 totg totw).
Proof.
  unfold apply_correction.
  generalize (r1 * (- strength s * 0.75 * con_k (con_get s ci) / totg)) as r. intros r.
  generalize (con_get s ci) as con. intros con.
  generalize (seq 0 (length (con_vs con))) as l.
  intros l. revert s. induction l as [| k l IH]; intros s; simpl; [apply uv_only_refl |].
  eapply uv_only_trans; [apply sv_upd_uv_only | apply IH].
Qed.

Lemma solve_constraint_uv_only acc ci :
  uv_only (fst (fst acc)) (fst (fst (solve_constraint acc ci))).
Proof.
  destruct acc as [[s error] totcon]. unfold solve_constraint.
  pose proof (eval_st_uv_only s (con_get s ci)) as H1.
  destruct (uvsolver_eval_constraint_st s (con_get s ci)) as [r1 s1]. simpl in H1 |- *.
  destruct (Rlt_dec _ eval_limit); [exact H1 |].
  pose proof (grad_fold_uv_only ci r1
                (grad_indices (length (con_vs (con_get s1 ci)))) (s1, 0, 0)) as H2.
  unfold grad_loop. destruct (fold_left _ _ _) as [[s2 totg] totw]. simpl in H2.
  eapply uv_only_trans; [exact H1 |].
  destruct (Rlt_dec _ eval_limit); [exact H2 |].
  eapply uv_only_trans; [exact H2 | apply apply_correction_uv_only].
Qed.

Lemma solve_fold_uv_only cis : forall acc,
  uv_only (fst (fst acc)) (fst (fst (fold_left solve_constraint cis acc))).
Proof.
  induction cis as [| c cis IH]; intros acc; simpl; [apply uv_only_refl |].
  eapply uv_only_trans; [apply solve_constraint_uv_only | apply IH].
Qed.

(** A solver step only moves UVs and refreshes scratch values:
    [uvsolver_solve_step] keeps both hash tables, the area totals and the
    strength; keeps every solver vertex except for its UV (same number of
    vertices; same position, mesh vertex, pinned and boundary flags, loops
    and neighbours); keeps every triangle except for its stored 2D area;
    and keeps every constraint except for its gradient rows [gs]. *)
Theorem uvsolver_solve_step_moves_only_uvs s uvs :
  let s' := snd (fst (uvsolver_solve_step s uvs)) in
  vhash s' = vhash s /\ fhash s' = fhash s /\ totarea3d s' = totarea3d s /\
  totarea2d s' = totarea2d s /\ strength s' = strength s /\
  Forall2 same_but_uv (verts s) (verts s') /\
  Forall2 same_but_area2d (tris s) (tris s') /\
  Forall2 same_but_gs (constraints s) (constraints s').
Proof.
  intros s'.
  assert (H : uv_only s s').
  { unfold s', uvsolver_solve_step.
    destruct (Rlt_dec (strength s) 0).
    - destruct (uvsolver_simple_relax s (Rabs (strength s)) uvs) as [s1 u1] eqn:E.
      simpl. change s1 with (fst (s1, u1)). rewrite <- E. apply simple_relax_uv_only.
    - destruct (uvsolver_simple_relax s (strength s * 0.1) uvs) as [s1 u1] eqn:E.
      assert (H1 : uv_only s s1).
      { change s1 with (fst (s1, u1)). rewrite <- E. apply simple_relax_uv_only. }
      destruct (fold_left solve_constraint (seq 0 (length (constraints s1))) (s1, 0, 0%nat))
        as [[s2 e] tc] eqn:E2. simpl.
      eapply uv_only_trans; [exact H1 |].
      change s2 with (fst (fst (s2, e, tc))). rewrite <- E2.
      apply (solve_fold_uv_only _ (s1, 0, 0%nat)). }
  exact H.
Qed.

Lemma write_loops ls x : forall uvs l,
  fold_left (fun uvs l' => uv_set uvs l' x) ls uvs l
  = if existsb (Nat.eqb l) ls then x else uvs l.
Proof.
  induction ls as [| a rest IH]; intros uvs l; simpl; [reflexivity |].
  rewrite IH. unfold uv_set.
  destruct (existsb (Nat.eqb l) rest), (Nat.eqb l a); reflexivity.
Qed.

Lemma write_verts_none vs : forall uvs l,
  (forall sv, In sv vs -> ~ In l (sv_ls sv)) ->
  fold_left (fun uvs sv => fold_left (fun uvs l => uv_set uvs l (sv_uv sv)) (sv_ls sv) uvs)
    vs uvs l = uvs l.
Proof.
  induction vs as [| sv vs IH]; intros uvs l Hn; simpl; [reflexivity |].
  rewrite IH by (intros; apply Hn; right; assumption).
  rewrite write_loops.
  destruct (existsb (Nat.eqb l) (sv_ls sv)) eqn:E; [| reflexivity].
  exfalso. apply existsb_exists in E as [x [Hx Hl]].
  apply Nat.eqb_eq in Hl; subst x. exact (Hn sv (or_introl eq_refl) Hx).
Qed.

(** The write-back at the end of [uvsolver_simple_relax] and
    [uvsolver_solve_step] copies each solver vertex's UV to its loops in
    pool order: a loop gets the UV of the last solver vertex that lists
    it, and a loop no solver vertex lists keeps its UV. *)
Theorem uvsolver_write_back_loop s uvs l :
  ((forall sv, In sv (verts s) -> ~ In l (sv_ls sv)) ->
   uvsolver_write_back s uvs l = uvs l) /\
  (forall pre sv post, verts s = pre ++ sv :: post -> In l (sv_ls sv) ->
   (forall sv', In sv' post -> ~ In l (sv_ls sv')) ->
   uvsolver_write_back s uvs l = sv_uv sv).
Proof.
  unfold uvsolver_write_back. split.
  - apply write_verts_none.
  - intros pre sv post Hv Hin Hpost. rewrite Hv, fold_left_app. simpl.
    rewrite write_verts_none by exact Hpost.
    rewrite write_loops.
    replace (existsb (Nat.eqb l) (sv_ls sv)) with true; [reflexivity |].
    symmetry. apply existsb_exists. exists l. split; [exact Hin | apply Nat.eqb_refl].
Qed.

(** [normalize_v2_db] zeroes a vector whose squared length is below
    [1e-7]; otherwise it returns a unit vector pointing the same way. *)
Theorem normalize_v2_db_unit v :
  let len := fst v * fst v + snd v * snd v in
  let n := normalize_v2_db v in
  (len < 0.0000001 -> n = (0, 0)) /\
  (0.0000001 <= len ->
   fst n * fst n + snd n * snd n = 1 /\ exists k, 0 < k /\ n = (k * fst v, k * snd v)).
Proof.
  intros len n. unfold n, normalize_v2_db. fold len.
  destruct (Rlt_dec len 0.0000001) as [Hl | Hl]; split; intros H; try lra; [reflexivity |].
  assert (Hp : 0 < len) by lra.
  pose proof (sqrt_lt_R0 _ Hp) as Hs. pose proof (sqrt_sqrt _ (Rlt_le _ _ Hp)) as Hss.
  simpl. split.
  - transitivity ((fst v * fst v + snd v * snd v) / (sqrt len * sqrt len));
      [field; lra |].
    rewrite Hss. fold len. field. lra.
  - exists (1 / sqrt len). split; [apply Rdiv_lt_0_compat; lra |].
    f_equal; ring.
Qed.

(** [area_tri_signed_v2_db] changes sign when two corners are swapped, is
    unchanged by a cyclic rotation of the corners and by a translation of
    all three; so [area_tri_v2_db] does not depend on the corner order. *)
Theorem area_tri_v2_db_symmetries a b c d :
  area_tri_signed_v2_db b a c = - area_tri_signed_v2_db a b c /\
  area_tri_signed_v2_db b c a = area_tri_signed_v2_db a b c /\
  area_tri_signed_v2_db (fst a + fst d, snd a + snd d) (fst b + fst d, snd b + snd d)
    (fst c + fst d, snd c + snd d) = area_tri_signed_v2_db a b c /\
  area_tri_v2_db b a c = area_tri_v2_db a b c /\
  area_tri_v2_db b c a = area_tri_v2_db a b c.
Proof.
  unfold area_tri_v2_db, area_tri_signed_v2_db; simpl.
  repeat split; try ring.
  - rewrite <- Rabs_Ropp. f_equal. ring.
  - f_equal. ring.
Qed.

Lemma nth_map_in {A B} (f : A -> B) l i (d : A) (d' : B) :
  (i < length l)%nat -> nth i (map f l) d' = f (nth i l d).
Proof.
  revert i; induction l as [| x r IH]; intros [| i] Hi; simpl in *; try lia; auto.
  apply IH; lia.
Qed.

(** Every solver UV moved by the same offset [d]. *)
Definition translate_uvs (s : UVSolver) (d : vec2) : UVSolver :=
  set_verts s (map (fun sv => set_uv sv (fst (sv_uv sv) + fst d, snd (sv_uv sv) + snd d))
                   (verts s)).

Lemma sv_get_translate s d i :
  (i < length (verts s))%nat ->
  sv_get (translate_uvs s d) i
  = set_uv (sv_get s i) (fst (sv_uv (sv_get s i)) + fst d, snd (sv_uv (sv_get s i)) + snd d).
Proof.
  intros Hi. unfold sv_get, translate_uvs; simpl.
  rewrite (nth_map_in _ _ _ sv_default) by exact Hi. reflexivity.
Qed.

Lemma sub_v2_translate a b d :
  sub_v2 (fst a + fst d, snd a + snd d) (fst b + fst d, snd b + snd d) = sub_v2 a b.
Proof. unfold sub_v2; simpl. f_equal; ring. Qed.

(** A constraint's residual depends only on the differences of the UVs:
    moving every solver UV by the same offset leaves
    [uvsolver_eval_constraint] unchanged, for a constraint whose three
    vertices are in the pool. *)
Theorem uvsolver_eval_constraint_translate s con d :
  (forall k, (k < 3)%nat -> (vs_at (con_vs con) k < length (verts s))%nat) ->
  uvsolver_eval_constraint (translate_uvs s d) con = uvsolver_eval_constraint s con.
Proof.
  intros Hv. unfold uvsolver_eval_constraint, uvsolver_eval_constraint_st.
  rewrite !sv_get_translate by (apply Hv; lia). simpl.
  destruct (con_type con).
  - rewrite !sub_v2_translate. reflexivity.
  - destruct (Req_dec_T _ 0); [reflexivity |].
    destruct (Req_dec_T _ 0); [reflexivity |].
    unfold area_tri_signed_v2_db; simpl.
    f_equal. f_equal. ring.
Qed.

(** After [uvsolver_solve_begin], a solver vertex is pinned exactly when a
    face around its mesh vertex was never set up in the solver, and such a
    vertex then keeps its UV through [uvsolver_simple_relax]. *)
Theorem uvsolver_solve_begin_pins lf s i :
  (i < length (verts s))%nat ->
  let s1 := uvsolver_solve_begin lf s in
  let outside := existsb (fun f => match assoc Nat.eqb f (fhash s) with
                                   | Some _ => false | None => true end)
                   (lf (sv_v (sv_get s i))) in
  sv_pinned (sv_get s1 i) = outside /\
  sv_uv (sv_get s1 i) = sv_uv (sv_get s i) /\
  (outside = true -> forall st uvs,
     sv_uv (sv_get (fst (uvsolver_simple_relax s1 st uvs)) i) = sv_uv (sv_get s i)).
Proof.
  intros Hi s1 outside.
  assert (Hg : sv_get s1 i = set_pinned (sv_get s i) outside).
  { unfold s1, outside, sv_get, uvsolver_solve_begin; simpl.
    rewrite (nth_map_in _ _ _ sv_default) by exact Hi. reflexivity. }
  rewrite Hg. split; [reflexivity | split; [reflexivity |]].
  intros Ho st uvs. unfold uvsolver_simple_relax, sv_get; simpl.
  rewrite relax_fold_skipped.
  - change (sv_uv (sv_get s1 i) = sv_uv (sv_get s i)). rewrite Hg. reflexivity.
  - left. change (sv_pinned (sv_get s1 i) = true). rewrite Hg. exact Ho.
Qed.

Lemma uvsolver_eval_constraint_translate_witness :
  (forall k, (k < 3)%nat -> (vs_at (con_vs tri_area_con) k < length (verts tri_solver))%nat) /\
  uvsolver_eval_constraint (translate_uvs tri_solver (5, 7)) tri_area_con
  = uvsolver_eval_constraint tri_solver tri_area_con.
Proof.
  assert (H : forall k, (k < 3)%nat ->
              (vs_at (con_vs tri_area_con) k < length (verts tri_solver))%nat).
  { intros [| [| [| k]]] Hk; unfold vs_at; simpl; lia. }
  split; [exact H | apply (uvsolver_eval_constraint_translate _ _ _ H)].
Defined.

Lemma uvsolver_solve_begin_pins_witness :
  (0 < length (verts tri_solver))%nat /\
  sv_pinned (sv_get (uvsolver_solve_begin (fun _ => [3%nat]) tri_solver) 0)
  = existsb (fun f => match assoc Nat.eqb f (fhash tri_solver) with
                      | Some _ => false | None => true end)
      [3%nat].
Proof.
  assert (H : (0 < length (verts tri_solver))%nat) by (simpl; lia).
  split; [exact H | exact (proj1 (uvsolver_solve_begin_pins (fun _ => [3%nat]) tri_solver 0 H))].
Defined.

Lemma uvsolver_write_back_loop_witness :
  verts tri_solver = [] ++ sv_get tri_solver 0 :: skipn 1 (verts tri_solver) /\
  In 0%nat (sv_ls (sv_get tri_solver 0)) /\
  (forall sv', In sv' (skipn 1 (verts tri_solver)) -> ~ In 0%nat (sv_ls sv')) /\
  uvsolver_write_back tri_solver uvs_zero 0%nat = sv_uv (sv_get tri_solver 0).
Proof.
  assert (H1 : verts tri_solver = [] ++ sv_get tri_solver 0 :: skipn 1 (verts tri_solver))
    by reflexivity.
  assert (H2 : In 0%nat (sv_ls (sv_get tri_solver 0))) by (simpl; auto).
  assert (H3 : forall sv', In sv' (skipn 1 (verts tri_solver)) -> ~ In 0%nat (sv_ls sv')).
  { intros sv' Hin. simpl in Hin.
    destruct Hin as [<- | [<- | []]]; simpl; intros [E | []]; discriminate. }
  split; [exact H1 | split; [exact H2 | split; [exact H3 |]]].
  exact (proj2 (uvsolver_write_back_loop tri_solver uvs_zero 0%nat) _ _ _ H1 H2 H3).
Defined.

Lemma normalize_v2_db_unit_witness :
  0.0000001 <= fst (3, 4) * fst (3, 4) + snd (3, 4) * snd (3, 4) /\
  fst (normalize_v2_db (3, 4)) * fst (normalize_v2_db (3, 4))
  + snd (normalize_v2_db (3, 4)) * snd (normalize_v2_db (3, 4)) = 1.
Proof.
  assert (H : 0.0000001 <= fst (3, 4) * fst (3, 4) + snd (3, 4) * snd (3, 4))
    by (simpl; lra).
  split; [exact H | exact (proj1 (proj2 (normalize_v2_db_unit (3, 4)) H))].
Defined.

End UVSolverStep.

(** * The two cotangent variants and the projected cotangent *)

Module CotanAgree.
Import Geom Cotan.

(** The loop body of [SCULPT_faces_get_cotangents] at index [i]. *)
Definition faces_body (mvert : list vec3) (medge : list (nat * nat))
    (vemap : list nat) (vi i : nat) : wedge :=
  let count := length vemap in
  let v := co mvert vi in
  let i1 := ((i + count - 1) mod count)%nat in
  let i2 := i in
  let i3 := ((i + 1) mod count)%nat in
  let e1 := nth i1 vemap 0%nat in
  let e2 := nth i2 vemap 0%nat in
  let e3 := nth i3 vemap 0%nat in
  cot_wedge v (co mvert (edge_other_vert medge vi e1))
              (co mvert (edge_other_vert medge vi e2))
              (co mvert (edge_other_vert medge vi e3)).

Lemma faces_get_cotangents_body mvert medge vemap vi :
  faces_get_cotangents mvert medge vemap vi
  = finish_cotangents (map (faces_body mvert medge vemap vi) (seq 0 (length vemap))).
Proof. reflexivity. Qed.

Lemma last_nth {A} (l : list A) (x y : A) :
  l <> [] -> last l x = nth (length l - 1) l y.
Proof.
  induction l as [| a l IH]; intros Hl; [congruence |].
  destruct l as [| b l]; [reflexivity |].
  change (last (b :: l) x = nth (length (b :: l)) (a :: b :: l) y).
  rewrite IH by discriminate. simpl. rewrite Nat.sub_0_r. reflexivity.
Qed.

Lemma disk_walk_body mvert medge vi d :
  forall es pre eprev,
  d = pre ++ es -> (0 < length d)%nat ->
  eprev = nth ((length pre + length d - 1) mod length d) d 0%nat ->
  disk_walk mvert medge vi (nth 0 d 0%nat) eprev es
  = map (faces_body mvert medge d vi) (seq (length pre) (length es)).
Proof.
  intros es. induction es as [| e rest IH]; intros pre eprev Hd Hn Hp; [reflexivity |].
  assert (Hlen : length d = (length pre + S (length rest))%nat)
    by (rewrite Hd, length_app; reflexivity).
  simpl. f_equal.
  - unfold faces_body. cbv zeta. rewrite <- Hp.
    assert (He : nth (length pre) d 0%nat = e)
      by (rewrite Hd, app_nth2, Nat.sub_diag by lia; reflexivity).
    rewrite He. f_equal. f_equal. f_equal.
    destruct rest as [| r rest].
    + simpl in Hlen. replace (length pre + 1)%nat with (length d) by lia.
      rewrite Nat.Div0.mod_same. reflexivity.
    + simpl in Hlen. rewrite Nat.mod_small by lia.
      rewrite Hd, app_nth2 by lia.
      replace (length pre + 1 - length pre)%nat with 1%nat by lia. reflexivity.
  - replace (S (length pre)) with (length (pre ++ [e]))
      by (rewrite length_app; simpl; lia).
    apply (IH (pre ++ [e]) e).
    + rewrite Hd, <- app_assoc. reflexivity.
    + exact Hn.
    + rewrite length_app. simpl.
      replace (length pre + 1 + length d - 1)%nat with (length pre + 1 * length d)%nat by lia.
      rewrite Nat.Div0.mod_add. rewrite Nat.mod_small by lia.
      rewrite Hd, app_nth2, Nat.sub_diag by lia. reflexivity.
Qed.

Lemma sub_madd (a b n : vec3) (s t : R) :
  sub_v3_v3v3 (madd_v3_v3fl a n s) (madd_v3_v3fl b n t)
  = madd_v3_v3fl (sub_v3_v3v3 a b) n (s - t).
Proof.
  destruct a as [[a1 a2] a3], b as [[b1 b2] b3], n as [[n1 n2] n3]; simpl.
  f_equal; [f_equal |]; ring.
Qed.

Lemma proj_shift (n a : vec3) (t : R) :
  dot_v3v3 n n = 1 ->
  madd_v3_v3fl (madd_v3_v3fl a n t) n (- dot_v3v3 n (madd_v3_v3fl a n t))
  = madd_v3_v3fl a n (- dot_v3v3 n a).
Proof.
  destruct a as [[a1 a2] a3], n as [[n1 n2] n3]; simpl. intros H.
  f_equal; [f_equal |]; nsatz.
Qed.

(** Given the same disk cycle of edges, [SCULPT_dyntopo_get_cotangents]
    and [SCULPT_faces_get_cotangents] produce the same outputs; for an
    isolated vertex the former writes nothing. *)
Theorem dyntopo_faces_cotangents_agree mvert medge disk vi :
  dyntopo_get_cotangents mvert medge disk vi
  = match disk with
    | [] => None
    | _ :: _ => Some (faces_get_cotangents mvert medge disk vi)
    end.
Proof.
  destruct disk as [| e0 rest]; [reflexivity |].
  unfold dyntopo_get_cotangents. rewrite faces_get_cotangents_body. f_equal. f_equal.
  apply (disk_walk_body mvert medge vi (e0 :: rest) (e0 :: rest) [] (last (e0 :: rest) e0)).
  - reflexivity.
  - simpl. lia.
  - simpl length. rewrite Nat.mod_small by lia.
    rewrite (last_nth _ _ 0%nat) by discriminate. reflexivity.
Qed.

(** For a unit normal [n], [cotangent_tri_weight_v3_proj] does not change
    when the three corners slide along [n]: only the parts of the edges
    across [n] count. *)
Theorem cotangent_tri_weight_v3_proj_slide n v1 v2 v3 t1 t2 t3 :
  dot_v3v3 n n = 1 ->
  cotangent_tri_weight_v3_proj n (madd_v3_v3fl v1 n t1) (madd_v3_v3fl v2 n t2)
    (madd_v3_v3fl v3 n t3)
  = cotangent_tri_weight_v3_proj n v1 v2 v3.
Proof.
  intros H. unfold cotangent_tri_weight_v3_proj. cbv zeta.
  rewrite !sub_madd, !proj_shift by exact H. reflexivity.
Qed.

Definition ez : vec3 := (0, 0, 1).

Lemma cotangent_tri_weight_v3_proj_slide_witness :
  dot_v3v3 ez ez = 1 /\
  cotangent_tri_weight_v3_proj ez (madd_v3_v3fl (0, 0, 0) ez 2)
    (madd_v3_v3fl (1, 0, 0) ez (-1)) (madd_v3_v3fl (0, 1, 0) ez 5)
  = cotangent_tri_weight_v3_proj ez (0, 0, 0) (1, 0, 0) (0, 1, 0).
Proof.
  assert (H : dot_v3v3 ez ez = 1) by (unfold ez; simpl; ring).
  split; [exact H | apply (cotangent_tri_weight_v3_proj_slide ez _ _ _ _ _ _ H)].
Defined.

End CotanAgree.

(** * The warning flags of [SCULPT_dynamic_topology_check] and the toggle *)

Module ToggleBits.
Import Toggle.

(** A modifier at which the check's modifier loop stops ([break]). *)
Definition stops (md : ModifierData) : bool :=
  md_enabled_realtime md && is_constructive (md_info_type md).

(** An enabled multires modifier comes before any modifier the loop stops
    at, or is that modifier. *)
Definition multires_first (mds : list ModifierData) : Prop :=
  exists pre md post, mds = pre ++ md :: post /\ md_enabled_realtime md = true /\
    md_type md = eModifierType_Multires /\ Forall (fun m => stops m = false) pre.

Fixpoint multires_before_stop (mds : list ModifierData) : bool :=
  match mds with
  | [] => false
  | md :: rest =>
      (md_enabled_realtime md && Nat.eqb (md_type md) eModifierType_Multires)
      || (negb (stops md) && multires_before_stop rest)
  end.

Lemma testbit_pow2 m n : (0 <= m)%Z -> Z.testbit (2 ^ m) n = (n =? m)%Z.
Proof.
  intros Hm. destruct (Z.ltb_spec n 0) as [Hn | Hn].
  - rewrite Z.testbit_neg_r by exact Hn. symmetry. apply Z.eqb_neq. lia.
  - rewrite Z.pow2_bits_eqb by exact Hm. apply Z.eqb_sym.
Qed.

Lemma bit_vdata n : Z.testbit DYNTOPO_WARN_VDATA n = (n =? 0)%Z.
Proof. apply (testbit_pow2 0); lia. Qed.

Lemma bit_edata n : Z.testbit DYNTOPO_WARN_EDATA n = (n =? 1)%Z.
Proof. apply (testbit_pow2 1); lia. Qed.

Lemma bit_ldata n : Z.testbit DYNTOPO_WARN_LDATA n = (n =? 2)%Z.
Proof. apply (testbit_pow2 2); lia. Qed.

Lemma bit_modifier n : Z.testbit DYNTOPO_WARN_MODIFIER n = (n =? 3)%Z.
Proof. apply (testbit_pow2 3); lia. Qed.

Lemma bit_multires n : Z.testbit DYNTOPO_ERROR_MULTIRES n = (n =? 4)%Z.
Proof. apply (testbit_pow2 4); lia. Qed.

Lemma modifiers_bits mds : forall f n,
  Z.testbit (check_modifiers mds f) n
  = Z.testbit f n || ((n =? 3)%Z && existsb stops mds)
    || ((n =? 4)%Z && multires_before_stop mds).
Proof.
  induction mds as [| md rest IH]; intros f n; simpl.
  - rewrite !andb_false_r. btauto.
  - unfold stops in *.
    destruct (md_enabled_realtime md) eqn:He; simpl.
    + destruct (Nat.eqb (md_type md) eModifierType_Multires) eqn:Ht;
        destruct (is_constructive (md_info_type md)) eqn:Hc; simpl;
        rewrite ?IH, ?Z.lor_spec, ?bit_multires, ?bit_modifier; btauto.
    + rewrite IH. btauto.
Qed.

Lemma customdata_bits ob l : forall f n,
  Z.testbit
    (fold_left (fun flag i =>
        if negb (cd_excluded i) then
          let flag := if CustomData_has_layer (me_vdata ob) i
                      then Z.lor flag DYNTOPO_WARN_VDATA else flag in
          let flag := if CustomData_has_layer (me_edata ob) i
                      then Z.lor flag DYNTOPO_WARN_EDATA else flag in
          if CustomData_has_layer (me_ldata ob) i
          then Z.lor flag DYNTOPO_WARN_LDATA else flag
        else flag) l f) n
  = Z.testbit f n
    || ((n =? 0)%Z && existsb (fun i => negb (cd_excluded i)
                                       && CustomData_has_layer (me_vdata ob) i) l)
    || ((n =? 1)%Z && existsb (fun i => negb (cd_excluded i)
                                       && CustomData_has_layer (me_edata ob) i) l)
    || ((n =? 2)%Z && existsb (fun i => negb (cd_excluded i)
                                       && CustomData_has_layer (me_ldata ob) i) l).
Proof.
  induction l as [| i l IH]; intros f n; simpl.
  - rewrite !andb_false_r. btauto.
  - rewrite IH.
    destruct (cd_excluded i); simpl; [btauto |].
    destruct (CustomData_has_layer (me_vdata ob) i), (CustomData_has_layer (me_edata ob) i),
      (CustomData_has_layer (me_ldata ob) i); simpl;
      rewrite ?Z.lor_spec, ?bit_vdata, ?bit_edata, ?bit_ldata; btauto.
Qed.

Lemma modifiers_nonneg mds : forall f, (0 <= f)%Z -> (0 <= check_modifiers mds f)%Z.
Proof.
  induction mds as [| md rest IH]; intros f Hf; simpl; [exact Hf |].
  destruct (md_enabled_realtime md); simpl; [| apply IH; exact Hf].
  assert (Hf' : (0 <= if Nat.eqb (md_type md) eModifierType_Multires
                      then Z.lor f DYNTOPO_ERROR_MULTIRES else f)%Z).
  { destruct (Nat.eqb _ _); [apply Z.lor_nonneg; split; [exact Hf | cbv; discriminate] | exact Hf]. }
  destruct (is_constructive _); [apply Z.lor_nonneg; split; [exact Hf' | cbv; discriminate] |].
  apply IH. exact Hf'.
Qed.

Lemma lor_nonneg_if (b : bool) (f g : Z) :
  (0 <= f)%Z -> (0 <= g)%Z -> (0 <= if b then Z.lor f g else f)%Z.
Proof. intros Hf Hg. destruct b; [apply Z.lor_nonneg; split |]; assumption. Qed.

Lemma customdata_nonneg ob f : (0 <= f)%Z -> (0 <= check_customdata ob f)%Z.
Proof.
  unfold check_customdata. generalize (seq 0 CD_NUMTYPES) as l.
  intros l; revert f; induction l as [| i l IH]; intros f Hf; simpl; [exact Hf |].
  apply IH. destruct (negb (cd_excluded i)); [| exact Hf].
  repeat apply lor_nonneg_if; try exact Hf; cbv; discriminate.
Qed.

Lemma customdata_high_bits ob n :
  (3 <= n)%Z -> Z.testbit (check_customdata ob 0) n = false.
Proof.
  intros Hn. unfold check_customdata. rewrite customdata_bits, Z.bits_0.
  rewrite (proj2 (Z.eqb_neq n 0)), (proj2 (Z.eqb_neq n 1)), (proj2 (Z.eqb_neq n 2)) by lia.
  reflexivity.
Qed.

Lemma existsb_seq_layers (q : nat -> bool) (data : list nat) (N : nat) :
  existsb (fun i => q i && CustomData_has_layer data i) (seq 0 N)
  = existsb (fun j => Nat.ltb j N && q j) data.
Proof.
  apply eq_true_iff_eq. rewrite !existsb_exists. split.
  - intros (i & Hi & Hq). apply andb_true_iff in Hq as [Hq He].
    unfold CustomData_has_layer in He.
    apply existsb_exists in He as (j & Hj & Hij). apply Nat.eqb_eq in Hij. subst j.
    exists i. split; [exact Hj |]. apply in_seq in Hi.
    rewrite Hq, andb_true_r. apply Nat.ltb_lt. lia.
  - intros (j & Hj & Hq). apply andb_true_iff in Hq as [Hlt Hq].
    apply Nat.ltb_lt in Hlt.
    exists j. split; [apply in_seq; lia |].
    rewrite Hq. simpl. unfold CustomData_has_layer. apply existsb_exists.
    exists j. split; [exact Hj | apply Nat.eqb_refl].
Qed.

Lemma multires_first_cons md rest :
  multires_first (md :: rest) <->
  (md_enabled_realtime md = true /\ md_type md = eModifierType_Multires) \/
  (stops md = false /\ multires_first rest).
Proof.
  split.
  - intros (pre & m & post & Hl & He & Ht & Hf).
    destruct pre as [| p pre]; simpl in Hl; injection Hl as H1 H2; subst.
    + left. split; assumption.
    + inversion Hf; subst. right. split; [assumption |].
      exists pre, m, post. repeat split; assumption.
  - intros [[He Ht] | [Hs (pre & m & post & Hl & He & Ht & Hf)]].
    + exists [], md, rest. repeat split; try assumption. constructor.
    + exists (md :: pre), m, post. rewrite Hl. repeat split; try assumption.
      constructor; assumption.
Qed.

Lemma multires_before_stop_spec mds :
  multires_before_stop mds = true <-> multires_first mds.
Proof.
  induction mds as [| md rest IH].
  - simpl. split; [discriminate |].
    intros (pre & m & post & Hl & _). destruct pre; discriminate.
  - rewrite multires_first_cons. simpl. rewrite orb_true_iff, !andb_true_iff, IH,
      Nat.eqb_eq, negb_true_iff. reflexivity.
Qed.

(** [SCULPT_dynamic_topology_check] sets [DYNTOPO_WARN_MODIFIER] exactly
    when an enabled constructive modifier is in the list, and
    [DYNTOPO_ERROR_MULTIRES] exactly when an enabled multires modifier comes
    no later than the first enabled constructive one; a multires modifier
    after that is not seen. *)
Theorem dynamic_topology_check_modifier_bits ob :
  Z.testbit (SCULPT_dynamic_topology_check ob) 3
    = existsb (fun md => md_enabled_realtime md && is_constructive (md_info_type md))
        (ob_modifiers ob) /\
  (Z.testbit (SCULPT_dynamic_topology_check ob) 4 = true <-> multires_first (ob_modifiers ob)).
Proof.
  unfold SCULPT_dynamic_topology_check.
  rewrite !modifiers_bits, !customdata_high_bits by lia.
  rewrite !Z.eqb_refl. change (3 =? 4)%Z with false. change (4 =? 3)%Z with false.
  rewrite !andb_false_l, !andb_true_l, !orb_false_r, !orb_false_l.
  split; [reflexivity |]. apply multires_before_stop_spec.
Qed.

(** [SCULPT_dynamic_topology_check] sets [DYNTOPO_WARN_VDATA] (resp.
    [EDATA], [LDATA]) exactly when the vertex (resp. edge, corner) data has
    a layer whose type is below [CD_NUMTYPES] and not one of the seven
    excluded types, and it sets no bit beyond the five flags. *)
Theorem dynamic_topology_check_customdata_bits ob :
  let ok := fun j => Nat.ltb j CD_NUMTYPES && negb (cd_excluded j) in
  Z.testbit (SCULPT_dynamic_topology_check ob) 0 = existsb ok (me_vdata ob) /\
  Z.testbit (SCULPT_dynamic_topology_check ob) 1 = existsb ok (me_edata ob) /\
  Z.testbit (SCULPT_dynamic_topology_check ob) 2 = existsb ok (me_ldata ob) /\
  (forall n, (5 <= n)%Z -> Z.testbit (SCULPT_dynamic_topology_check ob) n = false) /\
  (0 <= SCULPT_dynamic_topology_check ob)%Z.
Proof.
  intros ok. unfold SCULPT_dynamic_topology_check.
  split; [| split; [| split; [| split]]].
  4: { intros n Hn. rewrite modifiers_bits, customdata_high_bits by lia.
       rewrite (proj2 (Z.eqb_neq n 3)), (proj2 (Z.eqb_neq n 4)) by lia.
       reflexivity. }
  4: { apply modifiers_nonneg, customdata_nonneg. lia. }
  all: rewrite modifiers_bits; unfold check_customdata;
       rewrite customdata_bits, !existsb_seq_layers, Z.bits_0; simpl;
       rewrite ?orb_false_r; reflexivity.
Qed.

End ToggleBits.

(** * [SCULPT_cotangents_begin] on a dynamic-topology mesh *)

Module DiskSortBegin.
Import DiskSort.

Lemma land_lnot_clear (f M : Z) :
  Z.land f M = 0%Z -> Z.land f (Z.lnot M) = f.
Proof.
  intros H. apply Z.bits_inj'. intros n Hn.
  rewrite Z.land_spec, Z.lnot_spec by exact Hn.
  assert (Hb : Z.testbit (Z.land f M) n = false) by (rewrite H; apply Z.bits_0).
  rewrite Z.land_spec in Hb.
  destruct (Z.testbit f n), (Z.testbit M n); simpl in *; congruence.
Qed.

Lemma land_lnot_cleared (f M : Z) : Z.land (Z.land f (Z.lnot M)) M = 0%Z.
Proof.
  rewrite <- Z.land_assoc, (Z.land_comm (Z.lnot M) M), Z.land_lnot_diag.
  apply Z.land_0_r.
Qed.

Lemma check_disk_sort_after (M : Z) (E : Type) (sortf : list E -> list E) (v : dyn_vert E) :
  let v' := snd (SCULPT_dyntopo_check_disk_sort M E sortf v) in
  v_disk E v' = (if (Z.land (mv_flag E v) M =? 0)%Z then v_disk E v else sortf (v_disk E v)) /\
  mv_flag E v' = Z.land (mv_flag E v) (Z.lnot M) /\
  Z.land (mv_flag E v') M = 0%Z /\
  snd (SCULPT_dyntopo_check_disk_sort M E sortf v') = v'.
Proof.
  unfold SCULPT_dyntopo_check_disk_sort.
  destruct (Z.land (mv_flag E v) M =? 0)%Z eqn:Hf; simpl.
  - apply Z.eqb_eq in Hf. rewrite Hf. simpl.
    split; [reflexivity |]. split; [symmetry; apply land_lnot_clear; exact Hf |].
    split; reflexivity.
  - rewrite land_lnot_cleared. simpl.
    split; [reflexivity |]. split; [reflexivity |]. split; reflexivity.
Qed.

(** The [PBVH_BMESH] case of [SCULPT_cotangents_begin] re-sorts the disk
    cycle of exactly the vertices whose [DYNVERT_NEED_DISK_SORT] bit was
    set, clears that bit and no other in every flag word, and a second run
    changes nothing. *)
Theorem cotangents_begin_bmesh_clears (M : Z) (E : Type) (sortf : list E -> list E)
    (vs : list (dyn_vert E)) :
  let vs' := SCULPT_cotangents_begin_bmesh M E sortf vs in
  Forall2 (fun v v' =>
      v_disk E v' = (if (Z.land (mv_flag E v) M =? 0)%Z then v_disk E v
                     else sortf (v_disk E v)) /\
      mv_flag E v' = Z.land (mv_flag E v) (Z.lnot M)) vs vs' /\
  Forall (fun v' => Z.land (mv_flag E v') M = 0%Z) vs' /\
  SCULPT_cotangents_begin_bmesh M E sortf vs' = vs'.
Proof.
  unfold SCULPT_cotangents_begin_bmesh.
  induction vs as [| v vs IH]; simpl; [split; [constructor | split; [constructor | reflexivity]] |].
  destruct IH as (H1 & H2 & H3).
  destruct (check_disk_sort_after M E sortf v) as (A1 & A2 & A3 & A4).
  split; [constructor; [split; assumption | exact H1] |].
  split; [constructor; [exact A3 | exact H2] |].
  rewrite A4, H3. reflexivity.
Qed.

End DiskSortBegin.

(** * Temporary layers: lookup and creation *)

Module TempLayerMore.
Import TempLayer TempLayerFacts.

Lemma existsb_false_in {A} (p : A -> bool) l x :
  existsb p l = false -> In x l -> p x = false.
Proof.
  intros He Hin. destruct (p x) eqn:Hp; [| reflexivity].
  assert (existsb p l = true) by (apply existsb_exists; exists x; split; assumption).
  congruence.
Qed.

(** [SCULPT_dyntopo_has_templayer] and [SCULPT_dyntopo_get_templayer]
    agree: with no layer of that type and name, the offset is -1; otherwise
    it is the offset of the first such layer. *)
Theorem has_templayer_get_templayer cd type name :
  (SCULPT_dyntopo_has_templayer cd type name = false /\
   SCULPT_dyntopo_get_templayer cd type name = (-1)%Z /\
   forall x, In x cd -> named type name x = false) \/
  (SCULPT_dyntopo_has_templayer cd type name = true /\
   exists i x, nth_error cd i = Some x /\ named type name x = true /\
     (forall k y, (k < i)%nat -> nth_error cd k = Some y -> named type name y = false) /\
     SCULPT_dyntopo_get_templayer cd type name = Z.of_nat (cl_offset x)).
Proof.
  unfold SCULPT_dyntopo_has_templayer.
  destruct (find_layer_spec (named type name) cd) as [[Hf He] | (i & x & Hf & Hn & Hx & Hmin)].
  - left. unfold CustomData_get_named_layer_index. fold (named type name). rewrite Hf.
    split; [reflexivity |]. split.
    + unfold SCULPT_dyntopo_get_templayer, CustomData_get_named_layer_index.
      fold (named type name). rewrite Hf. reflexivity.
    + intros y Hy. exact (existsb_false_in _ _ _ He Hy).
  - right.
    assert (Hge : (0 <= CustomData_get_named_layer_index cd type name)%Z).
    { unfold CustomData_get_named_layer_index. fold (named type name). rewrite Hf. lia. }
    split; [apply Z.leb_le; exact Hge |].
    destruct (get_templayer_found cd type name Hge) as (j & y & Hj & Hnj & Hy & Hoff).
    unfold CustomData_get_named_layer_index in Hj. fold (named type name) in Hj.
    rewrite Hf in Hj. apply Nat2Z.inj in Hj. subst j.
    rewrite Hn in Hnj. injection Hnj as <-.
    exists i, x. split; [exact Hn |]. split; [exact Hx |]. split; [exact Hmin | exact Hoff].
Qed.

Lemma nth_error_set_flag cd i f x :
  nth_error cd i = Some x ->
  nth_error (set_layer_flag cd i f) i
  = Some (mkLayer (cl_type x) (cl_name x) (Z.lor (cl_flag x) f) (cl_offset x)).
Proof.
  revert i; induction cd as [| l rest IH]; intros [| i] Hn; simpl in *; try discriminate.
  - injection Hn as <-. reflexivity.
  - apply IH. exact Hn.
Qed.

(** When the named layer is absent, [SCULPT_dyntopo_ensure_templayer] adds
    it: the lookup then finds a layer of that type and name with
    [CD_FLAG_TEMPORARY] set. The node layers are ensured on the way, so
    they are all present afterwards, and the call adds between one and
    four layers. *)
Theorem ensure_templayer_new_is_temporary sz dn dv cd type name :
  (CustomData_get_named_layer_index cd type name < 0)%Z ->
  let cd1 := SCULPT_dyntopo_ensure_templayer sz dn dv cd type name in
  (exists i x, CustomData_get_named_layer_index cd1 type name = Z.of_nat i /\
     nth_error cd1 i = Some x /\ cl_type x = type /\ cl_name x = name /\
     Z.land (cl_flag x) CD_FLAG_TEMPORARY = CD_FLAG_TEMPORARY) /\
  node_layers_present dv cd1 = true /\
  (S (length cd) <= length cd1 <= length cd + 4)%nat.
Proof.
  intros Hlt cd1.
  destruct (ensure_templayer_absent sz dn dv cd type name Hlt) as [Hcd1 HeU].
  fold cd1 in Hcd1.
  set (U := SCULPT_dyntopo_node_layers_update_offsets sz dn dv
              (BM_data_layer_add_named sz cd type name)) in *.
  destruct (find_layer_spec (named type name) U) as [[_ He] | (i & x & Hf & Hn & Hx & _)];
    [congruence |].
  assert (Hcd1' : cd1 = set_layer_flag U i CD_FLAG_TEMPORARY).
  { rewrite Hcd1. unfold CustomData_get_named_layer_index. fold (named type name).
    rewrite Hf, Nat2Z.id. reflexivity. }
  split; [| split].
  - exists i, (mkLayer (cl_type x) (cl_name x) (Z.lor (cl_flag x) CD_FLAG_TEMPORARY) (cl_offset x)).
    unfold named in Hx. apply andb_true_iff in Hx as [Ht Hs].
    apply Nat.eqb_eq in Ht. apply String.eqb_eq in Hs.
    split; [| split; [| split; [exact Ht | split; [exact Hs |]]]].
    + rewrite Hcd1'. unfold CustomData_get_named_layer_index. fold (named type name).
      rewrite find_layer_set_flag_tn by apply tn_only_named. exact Hf.
    + rewrite Hcd1'. apply nth_error_set_flag. exact Hn.
    + simpl. apply Z.bits_inj'. intros n _.
      rewrite Z.land_spec, Z.lor_spec.
      destruct (Z.testbit (cl_flag x) n), (Z.testbit CD_FLAG_TEMPORARY n); reflexivity.
  - rewrite Hcd1'. apply (node_layers_present_mono dv U).
    + intros r Hr. rewrite existsb_set_flag_tn by apply tn_only_req. exact Hr.
    + apply node_layers_add_present.
  - rewrite Hcd1', length_set_flag.
    pose proof (node_layers_add_length sz dn dv (BM_data_layer_add_named sz cd type name)) as HL.
    rewrite add_named_length in HL. unfold U, SCULPT_dyntopo_node_layers_update_offsets. lia.
Qed.

Definition co_layers : list CustomDataLayer := [mkLayer 0 "co"%string 0 0].

(** On vertex data without the node layers, all three come with the new
    layer; [CD_DYNTOPO_VERT] taken as 51. *)
Lemma ensure_templayer_new_is_temporary_witness :
  (CustomData_get_named_layer_index co_layers 5 "tmp"%string < 0)%Z /\
  node_layers_present 51
    (SCULPT_dyntopo_ensure_templayer (fun _ => 4%nat) (fun _ => ""%string) 51
       co_layers 5 "tmp"%string) = true /\
  length (SCULPT_dyntopo_ensure_templayer (fun _ => 4%nat) (fun _ => ""%string) 51
            co_layers 5 "tmp"%string) = 5%nat.
Proof.
  assert (H : (CustomData_get_named_layer_index co_layers 5 "tmp"%string < 0)%Z)
    by (vm_compute; reflexivity).
  split; [exact H |].
  split; [exact (proj1 (proj2 (ensure_templayer_new_is_temporary (fun _ => 4%nat)
                                  (fun _ => ""%string) 51 co_layers 5 _ H))) |].
  vm_compute. reflexivity.
Defined.

End TempLayerMore.

(** * Neighbour lists of the UV solver *)

Module UVNeighbors.
Import Geom UVSolver UVSolverFacts UVSolverTables.

(** Every neighbour of a pool vertex is a pool vertex that lists it back. *)
Definition nbr_sym (s : UVSolver) : Prop :=
  forall i j, (i < length (verts s))%nat -> In j (sv_neighbors (sv_get s i)) ->
    (j < length (verts s))%nat /\ In i (sv_neighbors (sv_get s j)).

(** Every entry of the vertex table points into the pool. *)
Definition vhash_ok (s : UVSolver) : Prop :=
  Forall (fun p => (snd p < length (verts s))%nat) (vhash s).

Definition uv_inv (s : UVSolver) : Prop := nbr_sym s /\ vhash_ok s.

Lemma nbrs_upd_keep (l : list UVSmoothVert) a f k :
  (forall sv, sv_neighbors (f sv) = sv_neighbors sv) ->
  sv_neighbors (nth k (list_upd l a f) sv_default) = sv_neighbors (nth k l sv_default).
Proof.
  intros Hf. revert a k; induction l as [| x r IH]; intros [| a] [| k]; simpl; auto.
Qed.

Lemma length_sv_upd s a f : length (verts (sv_upd s a f)) = length (verts s).
Proof. apply length_list_upd. Qed.

Lemma inv_upd_keep s a f :
  (forall sv, sv_neighbors (f sv) = sv_neighbors sv) ->
  uv_inv s -> uv_inv (sv_upd s a f).
Proof.
  intros Hf [Hs Hv]. split.
  - intros i j Hi Hin. rewrite length_sv_upd in *.
    unfold sv_get, sv_upd, set_verts in *; simpl in *.
    rewrite nbrs_upd_keep in Hin by exact Hf. rewrite nbrs_upd_keep by exact Hf.
    apply Hs; assumption.
  - unfold vhash_ok. rewrite length_sv_upd. exact Hv.
Qed.

Lemma in_nbrs_add s a b k j :
  (a < length (verts s))%nat ->
  In j (sv_neighbors (sv_get (sv_upd s a (fun sv => add_neighbor sv b)) k)) <->
  In j (sv_neighbors (sv_get s k)) \/ (k = a /\ j = b).
Proof.
  intros Ha. unfold sv_get, sv_upd, set_verts; simpl.
  destruct (Nat.eq_dec k a) as [-> | Hne].
  - rewrite nth_list_upd_eq by exact Ha. unfold add_neighbor; simpl.
    rewrite in_app_iff; simpl. split.
    + intros [H | [<- | []]]; [left; exact H | right; split; reflexivity].
    + intros [H | [_ ->]]; [left; exact H | right; left; reflexivity].
  - rewrite nth_list_upd_neq by exact Hne. split.
    + intros H; left; exact H.
    + intros [H | [H _]]; [exact H | congruence].
Qed.

Lemma len_nbrs_add s a b k :
  (a < length (verts s))%nat ->
  length (sv_neighbors (sv_get (sv_upd s a (fun sv => add_neighbor sv b)) k))
  = (length (sv_neighbors (sv_get s k)) + (if Nat.eqb k a then 1 else 0))%nat.
Proof.
  intros Ha. unfold sv_get, sv_upd, set_verts; simpl.
  destruct (Nat.eq_dec k a) as [-> | Hne].
  - rewrite nth_list_upd_eq by exact Ha. unfold add_neighbor; simpl.
    rewrite length_app, Nat.eqb_refl. reflexivity.
  - rewrite nth_list_upd_neq by exact Hne.
    rewrite (proj2 (Nat.eqb_neq k a) Hne). lia.
Qed.

Lemma link_edge_length s a b : length (verts (link_edge s a b)) = length (verts s).
Proof.
  unfold link_edge. destruct (negb _); [reflexivity |].
  rewrite !length_sv_upd. reflexivity.
Qed.

Lemma link_edge_vhash s a b : vhash (link_edge s a b) = vhash s.
Proof. unfold link_edge. destruct (negb _); reflexivity. Qed.

Lemma link_edge_inv s v1 v2 :
  (v1 < length (verts s))%nat -> (v2 < length (verts s))%nat ->
  uv_inv s -> uv_inv (link_edge s v1 v2).
Proof.
  intros H1 H2 [Hs Hv]. unfold link_edge.
  destruct (negb _); [split; assumption |].
  set (s1 := sv_upd s v1 (fun sv => add_neighbor sv v2)).
  assert (L1 : length (verts s1) = length (verts s)) by apply length_sv_upd.
  set (s2 := sv_upd s1 v2 (fun sv => add_neighbor sv v1)).
  assert (L2 : length (verts s2) = length (verts s))
    by (unfold s2; rewrite length_sv_upd; exact L1).
  split.
  - intros i j Hi Hin. rewrite L2 in *.
    unfold s2 in Hin |- *. rewrite in_nbrs_add in Hin by (rewrite L1; exact H2).
    rewrite in_nbrs_add by (rewrite L1; exact H2).
    unfold s1 in Hin |- *. rewrite in_nbrs_add in Hin by exact H1.
    rewrite in_nbrs_add by exact H1.
    destruct Hin as [[Hin | [-> ->]] | [-> ->]].
    + destruct (Hs i j Hi Hin) as [Hj Hij]. split; [exact Hj | left; left; exact Hij].
    + split; [exact H2 | right; split; reflexivity].
    + split; [exact H1 | left; right; split; reflexivity].
  - unfold vhash_ok. rewrite L2. exact Hv.
Qed.

Lemma link_neighbors_length s vs :
  length (verts (link_neighbors s vs)) = length (verts s).
Proof. unfold link_neighbors. cbn [fold_left]. rewrite !link_edge_length. reflexivity. Qed.

Lemma link_neighbors_vhash s vs : vhash (link_neighbors s vs) = vhash s.
Proof. unfold link_neighbors. cbn [fold_left]. rewrite !link_edge_vhash. reflexivity. Qed.

Lemma link_neighbors_inv s vs :
  ((forall k, (k < 3)%nat -> (vs_at vs k < length (verts s))%nat) \/
   length (verts s) = 0%nat) ->
  uv_inv s -> uv_inv (link_neighbors s vs).
Proof.
  intros [Hk | H0] Hinv.
  - unfold link_neighbors. cbn [fold_left].
    assert (Hm : forall m, ((m + 1) mod 3 < 3)%nat) by (intros m; apply Nat.mod_upper_bound; lia).
    apply link_edge_inv; rewrite ?link_edge_length; try (apply Hk; first [lia | apply Hm]).
    apply link_edge_inv; rewrite ?link_edge_length; try (apply Hk; first [lia | apply Hm]).
    apply link_edge_inv; try (apply Hk; first [lia | apply Hm]).
    exact Hinv.
  - split.
    + intros i j Hi. rewrite link_neighbors_length, H0 in Hi. lia.
    + unfold vhash_ok. rewrite link_neighbors_length, link_neighbors_vhash. exact (proj2 Hinv).
Qed.

Lemma assoc_in {K} (eqb : K -> K -> bool) k m v :
  assoc eqb k m = Some v -> exists k', In (k', v) m.
Proof.
  induction m as [| [k' v'] r IH]; simpl; [discriminate |].
  destruct (eqb k k').
  - intros H. injection H as <-. exists k'. left. reflexivity.
  - intros H. destruct (IH H) as [k'' Hin]. exists k''. right. exact Hin.
Qed.

Lemma get_vert_inv s uvs l :
  uv_inv s ->
  uv_inv (fst (uvsolver_get_vert s uvs l)) /\
  (snd (uvsolver_get_vert s uvs l) < length (verts (fst (uvsolver_get_vert s uvs l))))%nat /\
  (length (verts s) <= length (verts (fst (uvsolver_get_vert s uvs l))))%nat.
Proof.
  intros [Hs Hv]. unfold uvsolver_get_vert.
  destruct (assoc Z.eqb _ (vhash s)) as [i |] eqn:Ha.
  - destruct (assoc_in _ _ _ _ Ha) as [k Hin].
    assert (Hi : (i < length (verts s))%nat)
      by exact (proj1 (Forall_forall _ _) Hv _ Hin).
    destruct (Nat.ltb _ MAXUVLOOPS); cbn [fst snd].
    + split; [apply inv_upd_keep; [intros sv; reflexivity | split; assumption] |].
      rewrite length_sv_upd. split; [exact Hi | lia].
    + split; [split; assumption |]. split; [exact Hi | lia].
  - match goal with |- context [mkSolver (verts s ++ [?x]) ?t ?c ?vh ?fh ?a3 ?a2 ?st] =>
      set (s1 := mkSolver (verts s ++ [x]) t c vh fh a3 a2 st) end.
    assert (Hlen1 : length (verts s1) = S (length (verts s)))
      by (unfold s1; simpl; rewrite length_app; simpl; lia).
    assert (Hinv1 : uv_inv s1).
    { split.
      - intros i j Hi Hin. rewrite Hlen1 in *. unfold s1, sv_get in *; simpl in *.
        destruct (Nat.eq_dec i (length (verts s))) as [-> | Hne].
        + rewrite app_nth2, Nat.sub_diag in Hin by lia. simpl in Hin. contradiction.
        + rewrite app_nth1 in Hin by lia.
          destruct (Hs i j ltac:(lia) Hin) as [Hj Hij].
          split; [lia |]. rewrite app_nth1 by lia. exact Hij.
      - unfold vhash_ok. rewrite Hlen1. unfold s1; simpl.
        constructor; [simpl; lia |].
        eapply Forall_impl; [| exact Hv]. intros p Hp. simpl in Hp. lia. }
    destruct (Nat.ltb _ MAXUVLOOPS); cbn [fst snd].
    + split; [apply inv_upd_keep; [intros sv; reflexivity | exact Hinv1] |].
      rewrite length_sv_upd. fold s1. rewrite Hlen1. split; lia.
    + split; [exact Hinv1 |]. fold s1. rewrite Hlen1. split; lia.
Qed.

Lemma collect_loops_inv ls : forall s uvs i vs nocon,
  uv_inv s -> Forall (fun k => (k < length (verts s))%nat) vs ->
  uv_inv (fst (fst (collect_loops s uvs ls i vs nocon))) /\
  Forall (fun k => (k < length (verts (fst (fst (collect_loops s uvs ls i vs nocon)))))%nat)
    (snd (fst (collect_loops s uvs ls i vs nocon))) /\
  (length (verts s) <= length (verts (fst (fst (collect_loops s uvs ls i vs nocon)))))%nat.
Proof.
  induction ls as [| l rest IH]; intros s uvs i vs nocon Hinv Hvs; simpl.
  - split; [exact Hinv | split; [exact Hvs | lia]].
  - pose proof (get_vert_inv s uvs l Hinv) as (I1 & V1 & L1).
    destruct (uvsolver_get_vert s uvs l) as [s1 sv] eqn:Eg.
    cbn [fst snd] in I1, V1, L1.
    assert (Hvs1 : Forall (fun k => (k < length (verts s1))%nat) (vs ++ [sv])).
    { apply Forall_app. split.
      - eapply Forall_impl; [| exact Hvs]. intros k Hk. cbv beta in Hk. lia.
      - constructor; [exact V1 | constructor]. }
    destruct (Nat.ltb 3 i); simpl.
    + split; [exact I1 | split; [exact Hvs1 | lia]].
    + destruct (IH s1 uvs (S i) (vs ++ [sv]) (nocon || l_seam l) I1 Hvs1) as (A & B & C).
      split; [exact A | split; [exact B | lia]].
Qed.

Lemma vs_at_lt vs n m :
  Forall (fun k => (k < n)%nat) vs -> (0 < n)%nat -> (vs_at vs m < n)%nat.
Proof.
  intros H Hn. unfold vs_at.
  destruct (nth_in_or_default m vs 0%nat) as [Hin | ->]; [| exact Hn].
  rewrite Forall_forall in H. apply H. exact Hin.
Qed.

(** [uvsolver_ensure_face] keeps the solver's tables consistent: if every
    neighbour link is mutual and inside the vertex pool, and every
    vertex-table entry points into the pool, the same holds after a face is
    set up. *)
Theorem uvsolver_ensure_face_neighbors_symmetric s uvs f :
  uv_inv s -> uv_inv (fst (uvsolver_ensure_face s uvs f)).
Proof.
  intros Hinv. unfold uvsolver_ensure_face.
  destruct (assoc Nat.eqb (f_id f) (fhash s)) as [ti |] eqn:Hf; [exact Hinv |].
  set (s0 := mkSolver _ _ _ _ _ _ _ _).
  assert (I0 : uv_inv s0) by exact Hinv.
  pose proof (collect_loops_inv (f_loops f) s0 uvs 0 [] false I0 (Forall_nil _))
    as (I1 & V1 & _).
  destruct (collect_loops s0 uvs (f_loops f) 0 [] false) as [[s1 vs] nocon] eqn:Ec.
  simpl in I1, V1.
  set (v0 := vs_at vs 0). set (v1 := vs_at vs 1). set (v2 := vs_at vs 2).
  set (a3 := area_tri_v3 _ _ _). set (a2 := area_tri_v2_db _ _ _).
  set (s2 := if Rlt_dec a2 _ then _ else _).
  assert (I2 : uv_inv s2 /\ length (verts s2) = length (verts s1)).
  { unfold s2. destruct (Rlt_dec _ _); [| split; [exact I1 | reflexivity]].
    unfold perturb_degenerate. split.
    - repeat (apply inv_upd_keep; [intros sv; reflexivity |]). exact I1.
    - rewrite !length_sv_upd. reflexivity. }
  set (s3 := mkSolver (verts s2) _ _ _ _ _ _ _).
  assert (I3 : uv_inv s3) by exact (proj1 I2).
  set (s4 := add_constraints s3 (length (tris s)) [v0; v1; v2] nocon).
  assert (I4 : uv_inv s4 /\ length (verts s4) = length (verts s1)).
  { unfold s4, add_constraints. destruct nocon; split; try exact I3; exact (proj2 I2). }
  simpl fst. apply link_neighbors_inv; [| exact (proj1 I4)].
  destruct (Nat.eq_dec (length (verts s1)) 0) as [H0 | Hpos].
  - right. rewrite (proj2 I4). exact H0.
  - left. intros k Hk. rewrite (proj2 I4).
    assert (Hv : forall m, (vs_at vs m < length (verts s1))%nat)
      by (intros m; apply vs_at_lt; [exact V1 | lia]).
    destruct k as [| [| [| k]]]; [exact (Hv 0%nat) | exact (Hv 1%nat) | exact (Hv 2%nat) | lia].
Qed.

(** The neighbour-linking loop of [uvsolver_ensure_face] keeps every
    neighbour count within [MAXUVNEIGHBORS] when the two ends of the edge
    are different pool vertices. When both ends are the same vertex (two
    corners of the face share a UV key) and it already has 31 neighbours,
    both stores go to that vertex and its count reaches 33: the second
    store, [neighbors[32]], is past the end of the C array. *)
Theorem link_edge_neighbor_cap s v1 v2 :
  (v1 < length (verts s))%nat -> (v2 < length (verts s))%nat ->
  (forall i, (length (sv_neighbors (sv_get s i)) <= MAXUVNEIGHBORS)%nat) ->
  (v1 <> v2 ->
   forall i, (length (sv_neighbors (sv_get (link_edge s v1 v2) i)) <= MAXUVNEIGHBORS)%nat) /\
  (v1 = v2 -> length (sv_neighbors (sv_get s v1)) = 31%nat ->
   ~ In v1 (sv_neighbors (sv_get s v1)) ->
   length (sv_neighbors (sv_get (link_edge s v1 v2) v1)) = 33%nat).
Proof.
  intros H1 H2 Hcap. split.
  - intros Hne i. unfold link_edge.
    destruct (negb _) eqn:Hok; [apply Hcap |].
    apply negb_false_iff in Hok. apply andb_true_iff in Hok as [Hok Hl2].
    apply andb_true_iff in Hok as [_ Hl1].
    apply Nat.ltb_lt in Hl1, Hl2.
    rewrite len_nbrs_add by (rewrite length_sv_upd; exact H2).
    rewrite len_nbrs_add by exact H1.
    pose proof (Hcap i) as Hi. unfold MAXUVNEIGHBORS in *.
    destruct (Nat.eqb_spec i v2) as [E2 | E2]; destruct (Nat.eqb_spec i v1) as [E1 | E1];
      subst; try congruence; lia.
  - intros <- H31 Hnin. unfold link_edge.
    assert (Hex : existsb (Nat.eqb v1) (sv_neighbors (sv_get s v1)) = false).
    { destruct (existsb _ _) eqn:He; [| reflexivity].
      apply existsb_exists in He as (x & Hx & Hxe). apply Nat.eqb_eq in Hxe. subst x.
      contradiction. }
    rewrite Hex, H31. simpl.
    rewrite len_nbrs_add by (rewrite length_sv_upd; exact H1).
    rewrite len_nbrs_add by exact H1.
    rewrite Nat.eqb_refl, H31. reflexivity.
Qed.

Lemma empty_solver_inv : uv_inv uvsolver_new.
Proof. split; [intros i j Hi; simpl in Hi; lia | constructor]. Qed.

Lemma uvsolver_ensure_face_neighbors_symmetric_witness :
  uv_inv uvsolver_new /\ uv_inv (fst (uvsolver_ensure_face uvsolver_new unit_uvs unit_triangle)).
Proof.
  split; [exact empty_solver_inv |].
  exact (uvsolver_ensure_face_neighbors_symmetric _ _ _ empty_solver_inv).
Defined.

(** One pool vertex with 31 neighbours, none of them itself. *)
Definition crowded_solver : UVSolver :=
  set_verts uvsolver_new [mkSV (0, 0) (0, 0, 0) 0 false false [] (seq 1 31)].

Lemma link_edge_neighbor_cap_witness :
  (0 < length (verts crowded_solver))%nat /\
  (forall i, (length (sv_neighbors (sv_get crowded_solver i)) <= MAXUVNEIGHBORS)%nat) /\
  length (sv_neighbors (sv_get (link_edge crowded_solver 0 0) 0)) = 33%nat.
Proof.
  assert (H1 : (0 < length (verts crowded_solver))%nat) by (simpl; lia).
  assert (Hc : forall i, (length (sv_neighbors (sv_get crowded_solver i)) <= MAXUVNEIGHBORS)%nat).
  { intros [| [| i]]; unfold sv_get, MAXUVNEIGHBORS; simpl; rewrite ?length_seq; lia. }
  assert (H31 : length (sv_neighbors (sv_get crowded_solver 0)) = 31%nat)
    by reflexivity.
  assert (Hn : ~ In 0%nat (sv_neighbors (sv_get crowded_solver 0))).
  { unfold sv_get. cbn [verts crowded_solver set_verts nth sv_neighbors].
    intros Hin. apply in_seq in Hin. lia. }
  split; [exact H1 | split; [exact Hc |]].
  exact (proj2 (link_edge_neighbor_cap crowded_solver 0 0 H1 H1 Hc) eq_refl H31 Hn).
Defined.

End UVNeighbors.
